(** * Phyton: the keyword-correction engine of [phyton.py]

    A shallow embedding of [PhytonInterpreter] (the misspelling table, its
    mutators and [fix_spelling]) together with the properties the
    specification states about it.

    Python values are modelled as follows.
    - A [str] is a sequence of Unicode code points: [list N].
    - A [list] object lives in a store and is named by a reference, so that
      two table entries (or a table entry and a caller) can share one object.
    - A [dict] is an association list in insertion order, which is the order
      [dict.items()] iterates in. *)

From Stdlib Require Import NArith Ascii String.
From stdpp Require Import base decidable option numbers list.

Local Open Scope N_scope.

(** ** Text *)

Definition char := N.
Definition str := list char.

(** A Python literal made of 8-bit characters, as a code-point sequence. *)
Definition py (s : string) : str :=
  List.map N_of_ascii (list_ascii_of_string s).

Definition ascii_alnum (c : char) : bool :=
  ((48 <=? c) && (c <=? 57)) || ((65 <=? c) && (c <=? 90))
  || ((97 <=? c) && (c <=? 122)).

Section Engine.

(** [re] compiles a [str] pattern in Unicode mode: [\w] is [str.isalnum()] or
    an underscore.  The Unicode database that decides [isalnum] for code
    points from 128 on is part of the Python runtime; it is a parameter. *)
Variable unicode_alnum : char -> bool.

Definition is_word (c : char) : bool :=
  if c <? 128 then ascii_alnum c || (c =? 95) else unicode_alnum c.

(** ** [re.sub(r'\b' + re.escape(m) + r'\b', k, text)]

    The pattern is the literal [m] between two word-boundary assertions; it
    is case-sensitive, no flag is given.  While scanning, [prev] tells
    whether the character before the current position is a word character
    ([false] at the start of the text). *)

Definition head_is_word (s : str) : bool :=
  match s with
  | [] => false
  | c :: _ => is_word c
  end.

Fixpoint last_is_word (prev : bool) (s : str) : bool :=
  match s with
  | [] => prev
  | c :: s' => last_is_word (is_word c) s'
  end.

(** [\b]: exactly one side is a word character. *)
Definition boundary (prev next : bool) : bool := xorb prev next.

Fixpoint strip_prefix (m s : str) : option str :=
  match m, s with
  | [], _ => Some s
  | _ :: _, [] => None
  | a :: m', c :: s' => if a =? c then strip_prefix m' s' else None
  end.

(** Does the pattern match at the current position? *)
Definition match_here (m : str) (prev : bool) (s : str) : bool :=
  boundary prev (head_is_word s) &&
  match strip_prefix m s with
  | Some rest => boundary (last_is_word prev m) (head_is_word rest)
  | None => false
  end.

(** Leftmost, non-overlapping substitution.  [skip] counts the characters of
    the current match that are still to be consumed.  The replacement is
    inserted literally, as [re.sub] does for a template without a backslash
    (a template with one is outside this model).
    An empty literal gives the pattern [\b\b], whose matches are empty: the
    replacement is inserted and the scan moves one character on. *)
Fixpoint sub_scan (m repl : str) (prev : bool) (skip : nat) (s : str) : str :=
  match s with
  | [] =>
      match m with
      | [] => if match_here m prev [] then repl else []
      | _ :: _ => []
      end
  | c :: s' =>
      match skip with
      | S n => sub_scan m repl (is_word c) n s'
      | O =>
          if match_here m prev s then
            match m with
            | [] => repl ++ c :: sub_scan m repl (is_word c) O s'
            | _ :: m' => repl ++ sub_scan m repl (is_word c) (List.length m') s'
            end
          else c :: sub_scan m repl (is_word c) O s'
      end
  end.

Definition re_sub (m repl text : str) : str := sub_scan m repl false O text.

(** ** The interpreter object

    [keyword_mappings] maps each correct keyword to a list object.  The list
    objects, those of the table and those of its caller, are kept in [store];
    a reference is an index into it, a [nat]. *)

Record interp := Interp {
  store : list (list str);
  keyword_mappings : list (str * nat)
}.

(** The value of the list object behind a reference. *)
Definition obj (self : interp) (r : nat) : list str :=
  default [] (store self !! r).

Fixpoint find_key (k : str) (d : list (str * nat)) : option nat :=
  match d with
  | [] => None
  | (k', r) :: d' => if decide (k' = k) then Some r else find_key k d'
  end.

(** [d[k] = r]: an existing key keeps its place, a new key goes last. *)
Fixpoint assign (k : str) (r : nat) (d : list (str * nat)) : list (str * nat) :=
  match d with
  | [] => [(k, r)]
  | (k', r') :: d' =>
      if decide (k' = k) then (k', r) :: d' else (k', r') :: assign k r d'
  end.

(** A list display evaluated by the caller: a fresh object. *)
Definition new_list (l : list str) (self : interp) : nat * interp :=
  (List.length (store self),
   Interp (store self ++ [l]) (keyword_mappings self)).

Definition add_misspelling (self : interp) (correct_keyword misspelling : str)
  : bool * interp :=
  match find_key correct_keyword (keyword_mappings self) with
  | Some r =>
      if decide (misspelling ∈ obj self r) then (true, self)
      else (true, Interp (<[r := obj self r ++ [misspelling]]> (store self))
                         (keyword_mappings self))
  | None => (false, self)
  end.

(** [misspellings] is [None] or a reference to the caller's list object,
    which is stored as it is (not copied) after the in-place insertion. *)
Definition add_keyword (self : interp) (correct_keyword : str)
    (misspellings : option nat) : interp :=
  match misspellings with
  | None =>
      Interp (store self ++ [[correct_keyword]])
             (assign correct_keyword (List.length (store self))
                     (keyword_mappings self))
  | Some r =>
      Interp (if decide (correct_keyword ∈ obj self r) then store self
              else <[r := correct_keyword :: obj self r]> (store self))
             (assign correct_keyword r (keyword_mappings self))
  end.

Definition get_misspellings (self : interp) (correct_keyword : str) : list str :=
  match find_key correct_keyword (keyword_mappings self) with
  | Some r => obj self r
  | None => []
  end.

(** [keyword_mappings.items()] with every list object read from the store. *)
Definition items (self : interp) : list (str * list str) :=
  List.map (fun kr => (fst kr, obj self (snd kr))) (keyword_mappings self).

(** The inner loop of [fix_spelling] for one keyword. *)
Definition fix_entry (correct_keyword : str) (misspellings : list str)
    (fixed_code : str) : str :=
  fold_left
    (fun code misspelling =>
       if decide (misspelling = correct_keyword) then code
       else re_sub misspelling correct_keyword code)
    misspellings fixed_code.

Definition fix_spelling (self : interp) (code : str) : str :=
  fold_left (fun fixed_code e => fix_entry (fst e) (snd e) fixed_code)
            (items self) code.

End Engine.

(** ** [__init__]: the built-in table *)

Local Open Scope string_scope.

Definition seed_groups : list (string * list string) :=
  [ ("def", ["def"; "deff"; "define"; "defin"]);
    ("if", ["if"; "iff"; "iif"]);
    ("elif", ["elif"; "elsif"; "elseif"; "else_if"]);
    ("else", ["else"; "els"; "elze"]);
    ("for", ["for"; "fore"; "four"; "fr"]);
    ("while", ["while"; "wile"; "whyle"; "whil"]);
    ("in", ["in"; "inn"; "iin"]);
    ("return", ["return"; "retrun"; "retrn"; "ret"]);
    ("import", ["import"; "imprt"; "imort"; "importt"]);
    ("from", ["from"; "frm"; "fom"]);
    ("as", ["as"; "az"; "ass"]);
    ("class", ["class"; "clas"; "clss"; "klass"]);
    ("try", ["try"; "tri"; "tyr"]);
    ("except", ["except"; "exept"; "excpt"; "catch"]);
    ("finally", ["finally"; "finaly"; "finale"]);
    ("with", ["with"; "wth"; "wit"]);
    ("and", ["and"; "andd"; "adn"]);
    ("or", ["or"; "orr"]);
    ("not", ["not"; "nott"; "no"]);
    ("is", ["is"; "iz"; "iss"]);
    ("True", ["True"; "true"; "TRUE"; "tru"]);
    ("False", ["False"; "false"; "FALSE"; "fals"]);
    ("None", ["None"; "none"; "NONE"; "null"; "nil"]);
    ("print", ["print"; "prin"; "prnt"; "pritn"]) ].

Local Close Scope string_scope.

Definition init : interp :=
  Interp (List.map (fun g => List.map py (snd g)) seed_groups)
         (imap (fun i g => (py (fst g), i)) seed_groups).

(** ** Words of a text

    A word is a maximal run of word characters.  [split_words f s] returns the
    run that opens [s], untouched, and the rest of [s] with [f] applied to
    every later word. *)

Section Words.

Variable unicode_alnum : char -> bool.

Definition word_only (s : str) : bool := forallb (is_word unicode_alnum) s.

Definition on_word (f : str -> str) (w : str) : str :=
  match w with
  | [] => []
  | _ :: _ => f w
  end.

Fixpoint split_words (f : str -> str) (s : str) : str * str :=
  match s with
  | [] => ([], [])
  | c :: s' =>
      let '(w, out) := split_words f s' in
      if is_word unicode_alnum c then (c :: w, out)
      else ([], c :: on_word f w ++ out)
  end.

Definition map_words (f : str -> str) (s : str) : str :=
  let '(w, out) := split_words f s in on_word f w ++ out.

Definition opt_word (w : str) : list str :=
  match w with
  | [] => []
  | _ :: _ => [w]
  end.

Fixpoint split_list (s : str) : str * list str :=
  match s with
  | [] => ([], [])
  | c :: s' =>
      let '(w, ws) := split_list s' in
      if is_word unicode_alnum c then (c :: w, ws)
      else ([], opt_word w ++ ws)
  end.

(** The words of a text, left to right. *)
Definition words (s : str) : list str :=
  let '(w, ws) := split_list s in opt_word w ++ ws.

End Words.

(** ** The table as rewrite rules *)

(** The pairs (misspelling, keyword) in the order [fix_spelling] applies
    them. *)
Definition rules_of (its : list (str * list str)) : list (str * str) :=
  flat_map
    (fun e => List.map (fun m => (m, fst e))
                (List.filter (fun m => negb (bool_decide (m = fst e))) (snd e)))
    its.

Definition rules (self : interp) : list (str * str) := rules_of (items self).

(** One [re.sub] call of the loop. *)
Definition apply_rule (ua : char -> bool) (code : str) (r : str * str) : str :=
  re_sub ua (fst r) (snd r) code.

(** The registered spellings that differ from their keyword. *)
Definition alternates (self : interp) : list str := List.map fst (rules self).

Definition keywords (self : interp) : list str :=
  List.map fst (keyword_mappings self).

(** The replacement of one word by one rule. *)
Definition subst1 (m k w : str) : str := if decide (w = m) then k else w.

(** What the successive rules make of a text that is one word. *)
Definition fix_word (rs : list (str * str)) (w : str) : str :=
  fold_left (fun w r => subst1 (fst r) (snd r) w) rs w.

(** The keyword of the first entry that lists [w]; [w] itself if none does. *)
Fixpoint canonical_in (its : list (str * list str)) (w : str) : str :=
  match its with
  | [] => w
  | (k, ms) :: its' => if decide (w ∈ ms) then k else canonical_in its' w
  end.

Definition canonical_of (self : interp) (w : str) : str :=
  canonical_in (items self) w.

(** A rule whose two sides are words. *)
Definition is_a_word (ua : char -> bool) (w : str) : bool :=
  negb (bool_decide (w = [])) && word_only ua w.

Definition rule_ok (ua : char -> bool) (r : str * str) : bool :=
  is_a_word ua (fst r) && is_a_word ua (snd r).

(** ** Table states

    A state is reached from [init] by calls of the two mutators; a list
    handed to [add_keyword] is any list object that exists at that point, one
    the caller built ([new_list]) or one taken out of the table.  [ok]
    restricts the lists a caller builds. *)
Inductive reachable_from (ok : list str -> Prop) : interp -> Prop :=
  | reach_init : reachable_from ok init
  | reach_new_list l self :
      reachable_from ok self -> ok l ->
      reachable_from ok (snd (new_list l self))
  | reach_add_misspelling k m self :
      reachable_from ok self ->
      reachable_from ok (snd (add_misspelling self k m))
  | reach_add_keyword_default k self :
      reachable_from ok self ->
      reachable_from ok (add_keyword self k None)
  | reach_add_keyword_list k r self :
      reachable_from ok self -> (r < List.length (store self))%nat ->
      reachable_from ok (add_keyword self k (Some r)).

Definition reachable : interp -> Prop := reachable_from (fun _ => True).

(** Every reference of the table names an object of the store. *)
Definition refs_valid (self : interp) : Prop :=
  forall k r, find_key k (keyword_mappings self) = Some r ->
              (r < List.length (store self))%nat.

Definition has_key (self : interp) (k : str) : Prop :=
  is_Some (find_key k (keyword_mappings self)).

(** Every key is bound to an object of the store that holds the key. *)
Definition table_ok (self : interp) : Prop :=
  forall k r, find_key k (keyword_mappings self) = Some r ->
              (r < List.length (store self))%nat /\ k ∈ obj self r.

Definition store_dup_free (self : interp) : Prop :=
  Forall NoDup (store self).

(** The invariant of the data model, in its two halves. *)
Definition entries_have_keyword (self : interp) : Prop :=
  forall k, has_key self k -> k ∈ get_misspellings self k.

Definition entries_dup_free (self : interp) : Prop :=
  forall k, has_key self k -> NoDup (get_misspellings self k).

(** ** The fuzzy matcher

    [find_fuzzy_match] and the [fuzzy_matching] flag of the interpreter are
    not in [phyton.py]; only the test-suite calls them.  This part follows
    section 4.3 of the specification. *)

(** Modelled from the spec: the edit distance behind the similarity score of
    [find_fuzzy_match] (character-level Levenshtein distance), computed row by
    row.  [lev_row] fills one row from the row above it. *)
Fixpoint lev_row (c : char) (b : str) (row : list nat) (diag left : nat)
  : list nat :=
  match b, row with
  | d :: b', up :: row' =>
      let v := Nat.min (Nat.min (up + 1) (left + 1))
                       (diag + if N.eqb c d then 0 else 1)%nat in
      v :: lev_row c b' row' up v
  | _, _ => []
  end.

(** Modelled from the spec: the row of the distance table for one more
    character of the word. *)
Definition lev_step (b : str) (row : list nat) (c : char) : list nat :=
  match row with
  | [] => []
  | r0 :: row' => (r0 + 1)%nat :: lev_row c b row' r0 (r0 + 1)%nat
  end.

(** Modelled from the spec: the distance is the last cell of the last
    row. *)
Definition levenshtein (a b : str) : nat :=
  List.last (fold_left (lev_step b) a (seq 0 (List.length b + 1))) 0%nat.

(** Modelled from the spec: the score of [find_fuzzy_match],
    [1 - distance / max(len(word), len(canonical))], kept as the fraction
    [num / den], with the difference of the two lengths for the tie-break. *)
Record score := Score { tok : str; num : nat; den : nat; gap : nat }.

(** Modelled from the spec: the score of [word] against one canonical
    token. *)
Definition similarity (word canonical : str) : score :=
  let n := List.length word in
  let k := List.length canonical in
  let mx := Nat.max n k in
  Score canonical (mx - levenshtein word canonical) mx
        (Nat.max n k - Nat.min n k).

(** Modelled from the spec: the adaptive threshold of [find_fuzzy_match], in
    percent: 90 for a canonical token of at most 3 characters, 80 up to 6,
    70 from 7 on. *)
Definition threshold (canonical : str) : nat :=
  let k := List.length canonical in
  if (k <=? 3)%nat then 90%nat else if (k <=? 6)%nat then 80%nat else 70%nat.

(** Modelled from the spec: the score meets the threshold of its token. *)
Definition accepts (sc : score) : bool :=
  (threshold (tok sc) * den sc <=? 100 * num sc)%nat.

(** Modelled from the spec: the choice among accepted tokens in
    [find_fuzzy_match].  [a] beats [b] with a higher score, or the same score
    and a smaller difference of lengths; otherwise the earlier token stays. *)
Definition beats (a b : score) : bool :=
  (num b * den a <? num a * den b)%nat
  || ((num a * den b =? num b * den a)%nat && (gap a <? gap b)%nat).

(** Modelled from the spec: one canonical token more in the search for the
    best accepted token. *)
Definition keep_best (word : str) (best : option score) (canonical : str)
  : option score :=
  let sc := similarity word canonical in
  if accepts sc then
    match best with
    | None => Some sc
    | Some b => if beats sc b then Some sc else best
    end
  else best.

(** Modelled from the spec: the length of the longest canonical token. *)
Definition longest (tokens : list str) : nat :=
  fold_left (fun n t => Nat.max n (List.length t)) tokens 0%nat.

(** Modelled from the spec: steps 1 to 5 of [find_fuzzy_match] over a
    vocabulary in table order.  A word of at most one character, or longer
    than twice the longest token, has no match. *)
Definition fuzzy_best (tokens : list str) (word : str) : option str :=
  let n := List.length word in
  if (n <=? 1)%nat || (2 * longest tokens <? n)%nat then None
  else tok <$> fold_left (keep_best word) tokens None.

(** Modelled from the spec: [find_fuzzy_match], absent from [phyton.py].
    With the flag off there is no match and no score is computed. *)
Definition find_fuzzy_match (fuzzy_matching : bool) (self : interp)
    (word : str) : option str :=
  if fuzzy_matching then fuzzy_best (List.map fst (keyword_mappings self)) word
  else None.

(** ** The option corrector

    The argument parser is not in [phyton.py]; only the test-suite calls it.
    This part follows section 4.5 of the specification. *)

(** Modelled from the spec: the option vocabulary of [correct_options], the
    three long options of section 6, each with the alternates the test-suite
    passes on the command line. *)

Local Open Scope string_scope.

Definition option_groups : list (string * list string) :=
  [ ("help", ["help"; "halp"; "helap"; "hepl"]);
    ("fuzzy", ["fuzzy"; "fuzy"; "fuzz"; "fuzi"; "fzzy"]);
    ("interactive", ["interactive"; "interactiv"; "intractiv"; "interact"]) ].

Local Close Scope string_scope.

(** Modelled from the spec: the option vocabulary as code-point strings. *)
Definition option_mappings : list (str * list str) :=
  List.map (fun g => (py (fst g), List.map py (snd g))) option_groups.

Section Options.

Variable unicode_alnum : char -> bool.

(** Modelled from the spec: the shape of a long option in [correct_options].
    The name is what follows [--], when that is one or more word characters
    and nothing else. *)
Definition long_option_name (arg : str) : option str :=
  match arg with
  | 45 :: 45 :: name =>
      if negb (bool_decide (name = [])) && word_only unicode_alnum name
      then Some name else None
  | _ => None
  end.

(** Modelled from the spec: the exact table lookup of [correct_options]. *)
Fixpoint exact_option (d : list (str * list str)) (name : str) : option str :=
  match d with
  | [] => None
  | (k, ms) :: d' => if decide (name ∈ ms) then Some k else exact_option d' name
  end.

(** Modelled from the spec: the lookup of [correct_options], the table first,
    the fuzzy matcher over the canonical names second. *)
Definition find_option_match (name : str) : option str :=
  match exact_option option_mappings name with
  | Some k => Some k
  | None => fuzzy_best (List.map fst option_mappings) name
  end.

(** Modelled from the spec: what [correct_options] does with one argument,
    the corrected spelling if the argument is to be replaced. *)
Definition correct_one (arg : str) : option str :=
  match long_option_name arg with
  | Some name =>
      match find_option_match name with
      | Some k =>
          if decide (py "--" ++ k = arg) then None else Some (py "--" ++ k)
      | None => None
      end
  | None => None
  end.

(** Modelled from the spec: [correct_options], absent from [phyton.py].  It
    returns the corrected arguments and the corrections made, both in
    order. *)
Fixpoint correct_options (args : list str) : list str * list (str * str) :=
  match args with
  | [] => ([], [])
  | arg :: rest =>
      let '(out, made) := correct_options rest in
      match correct_one arg with
      | Some fixed => (fixed :: out, (arg, fixed) :: made)
      | None => (arg :: out, made)
      end
  end.

End Options.

(** ** Further notions for texts and tables *)

(** The characters of a text that are outside every word, in order. *)
Definition separators (ua : char -> bool) (s : str) : str :=
  List.filter (fun c => negb (is_word ua c)) s.

(** A text without any word character. *)
Definition no_word (ua : char -> bool) (s : str) : bool :=
  forallb (fun c => negb (is_word ua c)) s.

(** No keyword that [fix_spelling] hands to [re.sub] as a replacement holds a
    backslash (code point 92): each is a literal template. *)
Definition plain_rules (self : interp) : bool :=
  forallb (fun r => negb (existsb (N.eqb 92) (snd r))) (rules self).

(** Every misspelling and every keyword of the rules is a word. *)
Definition words_table (ua : char -> bool) (self : interp) : bool :=
  forallb (rule_ok ua) (rules self).

(** No keyword is registered as a misspelling. *)
Definition separate (self : interp) : Prop :=
  Forall (fun k => k ∉ alternates self) (keywords self).

(** No two bindings of the table hold the same list object. *)
Definition unshared (self : interp) : Prop :=
  NoDup (List.map snd (keyword_mappings self)).

(** The entry of a binding once a misspelling went into the object [r]. *)
Definition entry_after (self : interp) (r : nat) (m : str) (kr : str * nat)
  : str * list str :=
  (fst kr, if decide (snd kr = r) then obj self r ++ [m]
           else obj self (snd kr)).

(** Every binding of the table, shadowed or not, names an object of the
    store. *)
Definition bindings_valid (self : interp) : Prop :=
  Forall (fun kr => (snd kr < List.length (store self))%nat)
         (keyword_mappings self).

(** The entry [add_keyword] stores for the list [ms]. *)
Definition with_keyword (k : str) (ms : list str) : list str :=
  if decide (k ∈ ms) then ms else k :: ms.

(** ** [execute], [interactive_mode] and [main]

    What these functions do beyond [fix_spelling] is input and output.  The
    model keeps the text written to standard output and the list of the codes
    handed to [exec], in order.  What [exec] does with a code (its own output,
    the exception it ends with, its effect on the globals and on everything
    else) is a parameter over an abstract [world], and so are the reading of a
    file, [str.lower] and the space characters from code point 128 on.

    Exceptions come from [exec] and from reading the file; Ctrl-C and the end
    of input come where [input] waits.  The inputs of the loop are the lines
    its own calls of [input] return: a line that the executed code reads from
    standard input is part of what [exec] does. *)

(** The exception classes named in the [except] clauses. *)
Inductive exc_class :=
  | SyntaxError | NameError | TypeError | ValueError | ImportError
  | KeyboardInterrupt | Exception | EOFError
  | FileNotFoundError | PermissionError | UnicodeDecodeError | OSError.

(** An exception object: [isinstance(e, C)], [type(e).__name__] and
    [str(e)]. *)
Record exn := Exn {
  is_a : exc_class -> bool;
  type_name : str;
  message : str
}.

(** One run of [exec]: what the code wrote and the exception it raised. *)
Record exec_result := ExecResult {
  printed : str;
  raised : option exn
}.

(** What a line read by [input] can be: a line, Ctrl-C, the end of input. *)
Inductive inp :=
  | Line (s : str)
  | CtrlC
  | EndOfInput.

(** How a function ends, or that it waits for input that is not there. *)
Inductive outcome :=
  | Waiting
  | Returned
  | Propagates (e : exn).

Definition join_lines (ls : list str) : str :=
  match ls with
  | [] => []
  | l :: ls' => fold_left (fun acc x => acc ++ 10 :: x) ls' l
  end.

Definition starts_indented (line : str) : bool :=
  match line with
  | 32 :: 32 :: 32 :: 32 :: _ => true
  | 9 :: _ => true
  | _ => false
  end.

Definition exit_words : list str :=
  [py "exit()"; py "quit()"; py "exit"; py "quit"].

Definition goodbye : str := py "Goodbye from Phyton! " ++ [127807].

Section Shell.

Variable unicode_alnum : char -> bool.
Variable unicode_space : char -> bool.
Variable lower : str -> str.
Variable world : Type.
Variable exec_py : str -> world -> exec_result * world.
Variable read_file : str -> world -> (str + exn) * world.

(** [str.isspace] of one character. *)
Definition is_space (c : char) : bool :=
  if c <? 128 then ((9 <=? c) && (c <=? 13)) || ((28 <=? c) && (c <=? 32))
  else unicode_space c.

Fixpoint lstrip (s : str) : str :=
  match s with
  | [] => []
  | c :: s' => if is_space c then lstrip s' else s
  end.

Definition rstrip (s : str) : str := rev (lstrip (rev s)).

Definition strip (s : str) : str := lstrip (rstrip s).

(** [line.strip()] as a condition. *)
Definition nonblank (line : str) : bool := negb (bool_decide (strip line = [])).

(** [line.rstrip().endswith(':')] *)
Definition ends_with_colon (line : str) : bool :=
  match rev (rstrip line) with
  | 58 :: _ => true
  | _ => false
  end.

(** Standard output, the codes handed to [exec], and the rest of the world. *)
Record io := IO {
  stdout : str;
  calls : list str;
  rest : world
}.

(** [print(s)] *)
Definition print (s : str) (st : io) : io :=
  IO (stdout st ++ s ++ [10]) (calls st) (rest st).

(** The prompt [input] writes before it reads. *)
Definition write (s : str) (st : io) : io :=
  IO (stdout st ++ s) (calls st) (rest st).

(** [exec(fixed_code, globals())] *)
Definition run_exec (code : str) (st : io) : io * option exn :=
  let '(res, w) := exec_py code (rest st) in
  (IO (stdout st ++ printed res) (calls st ++ [code]) w, raised res).

(** The [except] clauses of [execute], first match first. *)
Definition execute_handlers (e : exn) (st : io) : io * option exn :=
  if is_a e SyntaxError then
    (print (py "PhytonSyntaxError: " ++ message e) st, None)
  else if is_a e NameError then
    (print (py "PhytonNameError: " ++ message e) st, None)
  else if is_a e TypeError then
    (print (py "PhytonTypeError: " ++ message e) st, None)
  else if is_a e ValueError then
    (print (py "PhytonValueError: " ++ message e) st, None)
  else if is_a e ImportError then
    (print (py "PhytonImportError: " ++ message e) st, None)
  else if is_a e KeyboardInterrupt then
    (print (py "PhytonKeyboardInterrupt: Execution interrupted") st, None)
  else if is_a e Exception then
    (print (py "This might be a bug in Phyton or an unusual error condition.")
       (print (py "PhytonUnexpectedError: " ++ type_name e ++ py ": "
               ++ message e) st),
     None)
  else (st, Some e).

(** [execute]: the state afterwards and the exception that goes on to the
    caller, if any. *)
Definition execute (self : interp) (code : str) (st : io) : io * option exn :=
  let fixed_code := fix_spelling unicode_alnum self code in
  let st1 :=
    if decide (fixed_code = code) then st
    else print (py "# Phyton: Fixed spelling -> " ++ fixed_code) st in
  let '(st2, r) := run_exec fixed_code st1 in
  match r with
  | None => (st2, None)
  | Some e => execute_handlers e st2
  end.

(** The state of the loop of [interactive_mode]. *)
Record repl := Repl {
  console : io;
  multi_line_buffer : list str
}.

(** The [except] clauses of the loop, for an exception out of [execute]. *)
Definition loop_handlers (e : exn) (st : io) (buffer : list str)
  : repl * outcome :=
  if is_a e KeyboardInterrupt then
    (Repl (print (10 :: py "KeyboardInterrupt") st) [], Waiting)
  else if is_a e EOFError then
    (Repl (print (10 :: goodbye) st) buffer, Returned)
  else (Repl st buffer, Propagates e).

(** One turn of the loop, after the prompt, on what [input] gave. *)
Definition repl_turn (self : interp) (i : inp) (st : repl) : repl * outcome :=
  match i with
  | EndOfInput =>
      (Repl (print (10 :: goodbye) (console st)) (multi_line_buffer st),
       Returned)
  | CtrlC =>
      (Repl (print (10 :: py "KeyboardInterrupt") (console st)) [], Waiting)
  | Line line =>
      if decide (lower (strip line) ∈ exit_words) then
        (Repl (print goodbye (console st)) (multi_line_buffer st), Returned)
      else
        let buffer :=
          if nonblank line then multi_line_buffer st ++ [line]
          else multi_line_buffer st in
        if nonblank line
           && (ends_with_colon line
               || (negb (bool_decide (buffer = [])) && starts_indented line))
        then (Repl (console st) buffer, Waiting)
        else if negb (bool_decide (buffer = [])) then
          match execute self (join_lines buffer) (console st) with
          | (st', None) => (Repl st' [], Waiting)
          | (st', Some e) => loop_handlers e st' buffer
          end
        else if nonblank line then
          match execute self line (console st) with
          | (st', None) => (Repl st' buffer, Waiting)
          | (st', Some e) => loop_handlers e st' buffer
          end
        else (Repl (console st) buffer, Waiting)
  end.

(** The lines among the inputs that the loop puts into its buffer. *)
Definition kept_lines (ins : list inp) : list str :=
  flat_map (fun i => match i with
                     | Line line => if nonblank line then [line] else []
                     | _ => []
                     end) ins.

Definition prompt (st : repl) : str :=
  match multi_line_buffer st with
  | [] => py "phyton>>> "
  | _ :: _ => py "phyton... "
  end.

(** The loop over the inputs that are there. *)
Fixpoint repl_loop (self : interp) (ins : list inp) (st : repl)
  : repl * outcome :=
  let st := Repl (write (prompt st) (console st)) (multi_line_buffer st) in
  match ins with
  | [] => (st, Waiting)
  | i :: ins' =>
      match repl_turn self i st with
      | (st', Waiting) => repl_loop self ins' st'
      | (st', o) => (st', o)
      end
  end.

Definition welcome (st : io) : io :=
  print []
    (print (py "Use empty line to execute multi-line statements")
       (print (py "Type 'exit()' or 'quit()' to leave")
          (print (py "The Python interpreter for bad spellers!")
             (print (py "Welcome to Phyton " ++ [127793]
                     ++ py " (Greek for 'plant')") st)))).

Definition interactive_mode (self : interp) (ins : list inp) (st : io)
  : repl * outcome :=
  repl_loop self ins (Repl (welcome st) []).

(** The [except] clauses of [main]. *)
Definition main_handlers (filename : str) (e : exn) (st : io)
  : io * outcome :=
  if is_a e FileNotFoundError then
    (print (py "PhytonError: File '" ++ filename ++ py "' not found") st,
     Returned)
  else if is_a e PermissionError then
    (print (py "PhytonError: Permission denied reading file '" ++ filename
            ++ py "'") st, Returned)
  else if is_a e UnicodeDecodeError then
    (print (py "PhytonError: Cannot decode file '" ++ filename ++ py "': "
            ++ message e) st, Returned)
  else if is_a e OSError then
    (print (py "PhytonError: OS error reading file '" ++ filename ++ py "': "
            ++ message e) st, Returned)
  else if is_a e Exception then
    (print (py "This might be a bug in Phyton.")
       (print (py "PhytonUnexpectedError: " ++ type_name e ++ py ": "
               ++ message e) st),
     Returned)
  else (st, Propagates e).

(** [main] on [sys.argv] and on what standard input holds. *)
Definition main (argv : list str) (ins : list inp) (st : io) : io * outcome :=
  match argv with
  | _ :: filename :: _ =>
      match read_file filename (rest st) with
      | (inl code, w) =>
          match execute init code (IO (stdout st) (calls st) w) with
          | (st', None) => (st', Returned)
          | (st', Some e) => main_handlers filename e st'
          end
      | (inr e, w) => main_handlers filename e (IO (stdout st) (calls st) w)
      end
  | _ =>
      let '(st', o) := interactive_mode init ins st in (console st', o)
  end.

End Shell.

Arguments IO {world}.
Arguments stdout {world}.
Arguments calls {world}.
Arguments rest {world}.
Arguments print {world}.
Arguments write {world}.
Arguments run_exec {world}.
Arguments execute_handlers {world}.
Arguments execute unicode_alnum {world}.
Arguments Repl {world}.
Arguments console {world}.
Arguments multi_line_buffer {world}.
Arguments loop_handlers {world}.
Arguments repl_turn unicode_alnum unicode_space lower {world}.
Arguments prompt {world}.
Arguments repl_loop unicode_alnum unicode_space lower {world}.
Arguments welcome {world}.
Arguments interactive_mode unicode_alnum unicode_space lower {world}.
Arguments main_handlers {world}.
Arguments main unicode_alnum unicode_space lower {world}.

(** * Properties *)

(** A decidable fact about closed terms, settled by evaluation. *)
Ltac settle_by_eval :=
  match goal with
  | |- ?P =>
      let H := fresh in
      assert (H : bool_decide P = true) by (vm_compute; reflexivity);
      apply bool_decide_eq_true in H; exact H
  end.

Section Scan.

Variable ua : char -> bool.

Lemma strip_prefix_app m r : strip_prefix m (m ++ r) = Some r.
Proof.
  induction m as [|a m IH]; simpl; [done|].
  by rewrite N.eqb_refl.
Qed.

Lemma last_is_word_full b m :
  word_only ua m = true -> m <> [] -> last_is_word ua b m = true.
Proof.
  revert b. induction m as [|a m IH]; intros b Hm Hne; [done|].
  simpl in *. apply andb_true_iff in Hm as [Ha Hm].
  destruct m as [|a' m]; [done|]. by apply IH.
Qed.

Lemma last_is_word_snoc b x c :
  last_is_word ua b (x ++ [c]) = is_word ua c.
Proof. revert b. induction x as [|a x IH]; intros b; simpl; [done|]. apply IH. Qed.

(** A literal of word characters found at the start of a word either is the
    whole word or stops inside it. *)
Lemma strip_prefix_word m w r rest :
  strip_prefix m (w ++ r) = Some rest ->
  word_only ua m = true -> word_only ua w = true ->
  head_is_word ua r = false ->
  (m = w /\ rest = r) \/ head_is_word ua rest = true.
Proof.
  revert w. induction m as [|a m IH]; intros w Hs Hm Hw Hr; simpl in *.
  - injection Hs as <-. destruct w as [|c w]; [by left|].
    right. simpl in *. by apply andb_true_iff in Hw as [-> _].
  - apply andb_true_iff in Hm as [Ha Hm].
    destruct w as [|c w]; simpl in *.
    + destruct r as [|c r]; [done|]. simpl in Hr.
      destruct (N.eqb_spec a c) as [->|]; [congruence|done].
    + apply andb_true_iff in Hw as [Hc Hw].
      destruct (N.eqb_spec a c) as [->|]; [|done].
      destruct (IH w Hs Hm Hw Hr) as [[-> ->]|H]; [by left|by right].
Qed.

Lemma match_here_sep a m b c s :
  is_word ua a = true -> is_word ua c = false ->
  match_here ua (a :: m) b (c :: s) = false.
Proof.
  intros Ha Hc. unfold match_here. simpl.
  destruct (N.eqb_spec a c) as [->|]; [congruence|].
  apply andb_false_r.
Qed.

(** Where the text goes on with a separator the scan does not depend on
    what came before. *)
Lemma sub_scan_sep a m repl b r :
  is_word ua a = true -> head_is_word ua r = false ->
  sub_scan ua (a :: m) repl b O r = sub_scan ua (a :: m) repl false O r.
Proof.
  intros Ha Hr. destruct r as [|c r]; [done|].
  simpl in Hr. cbn [sub_scan]. by rewrite !match_here_sep.
Qed.

Lemma sub_scan_skip m repl b x r :
  sub_scan ua m repl b (List.length x) (x ++ r)
  = sub_scan ua m repl (last_is_word ua b x) O r.
Proof.
  revert b. induction x as [|c x IH]; intros b; [done|].
  simpl. apply IH.
Qed.

(** Inside a word nothing matches. *)
Lemma sub_scan_inside m repl w r :
  word_only ua w = true ->
  sub_scan ua m repl true O (w ++ r) = w ++ sub_scan ua m repl true O r.
Proof.
  induction w as [|c w IH]; intros Hw; [done|].
  simpl in Hw. apply andb_true_iff in Hw as [Hc Hw].
  cbn [app sub_scan]. unfold match_here at 1. simpl. rewrite Hc. simpl.
  by rewrite IH.
Qed.

(** At the start of a word the scan replaces the word if it is the literal
    and copies it otherwise. *)
Lemma sub_scan_word a m repl w r :
  word_only ua (a :: m) = true ->
  word_only ua w = true -> w <> [] -> head_is_word ua r = false ->
  sub_scan ua (a :: m) repl false O (w ++ r)
  = subst1 (a :: m) repl w ++ sub_scan ua (a :: m) repl false O r.
Proof.
  intros Hm Hw Hne Hr.
  assert (Ha : is_word ua a = true).
  { simpl in Hm. by apply andb_true_iff in Hm as [? _]. }
  destruct w as [|c w]; [done|].
  assert (Hc : is_word ua c = true).
  { simpl in Hw. by apply andb_true_iff in Hw as [? _]. }
  assert (Hw' : word_only ua w = true).
  { simpl in Hw. by apply andb_true_iff in Hw as [_ ?]. }
  cbn [app sub_scan].
  destruct (decide (c :: w = a :: m)) as [E|NE].
  - unfold subst1. rewrite decide_True by done. injection E as -> ->.
    unfold match_here. cbn [head_is_word]. rewrite Ha.
    change (a :: m ++ r) with ((a :: m) ++ r). rewrite strip_prefix_app.
    rewrite last_is_word_full by done. rewrite Hr. cbn [boundary xorb andb].
    rewrite sub_scan_skip. f_equal. by apply sub_scan_sep.
  - assert (Hno : match_here ua (a :: m) false (c :: w ++ r) = false).
    { unfold match_here. cbn [head_is_word]. rewrite Hc. cbn [boundary xorb andb].
      destruct (strip_prefix (a :: m) (c :: w ++ r)) as [rest|] eqn:Hs; [|done].
      change (c :: w ++ r) with ((c :: w) ++ r) in Hs.
      destruct (strip_prefix_word _ _ _ _ Hs Hm Hw Hr) as [[E _]|Hrest];
        [congruence|].
      rewrite last_is_word_full by done. by rewrite Hrest. }
    unfold subst1. rewrite decide_False by done.
    rewrite Hno, Hc. rewrite sub_scan_inside by done.
    cbn [app]. do 2 f_equal. by apply sub_scan_sep.
Qed.

(** [split_words] against the scan: the opening run, then the scan of what
    follows it. *)
Lemma split_words_scan a m repl s :
  word_only ua (a :: m) = true ->
  let '(w, out) := split_words ua (subst1 (a :: m) repl) s in
  word_only ua w = true /\
  exists r, s = w ++ r /\ head_is_word ua r = false /\
            sub_scan ua (a :: m) repl false O r = out.
Proof.
  intros Hm.
  assert (Ha : is_word ua a = true).
  { simpl in Hm. by apply andb_true_iff in Hm as [? _]. }
  induction s as [|c s IH]; simpl.
  - split; [done|]. by exists [].
  - destruct (split_words ua (subst1 (a :: m) repl) s) as [w out].
    destruct IH as (Hw & r & -> & Hr & Hout).
    destruct (is_word ua c) eqn:Hc.
    + split; [by simpl; rewrite Hc|]. by exists r.
    + split; [done|]. exists (c :: w ++ r). split; [done|]. split; [by simpl|].
      cbn [sub_scan]. rewrite match_here_sep by done. rewrite Hc. f_equal.
      destruct w as [|c' w]; [by simpl|].
      rewrite sub_scan_word by done. cbn [on_word]. by rewrite Hout.
Qed.

(** One [re.sub] of the loop, word by word. *)
Lemma re_sub_map_words m repl s :
  word_only ua m = true -> m <> [] ->
  re_sub ua m repl s = map_words ua (subst1 m repl) s.
Proof.
  intros Hm Hne. destruct m as [|a m]; [done|].
  unfold re_sub, map_words.
  pose proof (split_words_scan a m repl s Hm) as H.
  destruct (split_words ua (subst1 (a :: m) repl) s) as [w out].
  destruct H as (Hw & r & -> & Hr & Hout).
  destruct w as [|c w]; [by simpl|].
  rewrite sub_scan_word by done. cbn [on_word]. by rewrite Hout.
Qed.

End Scan.

Section WordLemmas.

Variable ua : char -> bool.

Lemma split_words_fst f s : word_only ua (fst (split_words ua f s)) = true.
Proof.
  induction s as [|c s IH]; simpl; [done|].
  destruct (split_words ua f s) as [w out]. simpl in *.
  destruct (is_word ua c) eqn:Hc; simpl; [by rewrite Hc|done].
Qed.

Lemma split_words_snd f s : head_is_word ua (snd (split_words ua f s)) = false.
Proof.
  induction s as [|c s IH]; simpl; [done|].
  destruct (split_words ua f s) as [w out]. simpl in *.
  destruct (is_word ua c) eqn:Hc; simpl; done.
Qed.

Lemma map_words_sep f c s :
  is_word ua c = false -> map_words ua f (c :: s) = c :: map_words ua f s.
Proof.
  intros Hc. unfold map_words. simpl.
  destruct (split_words ua f s) as [w out]. by rewrite Hc.
Qed.

Lemma split_words_app_sep f x y :
  head_is_word ua y = false ->
  split_words ua f (x ++ y)
  = (fst (split_words ua f x), snd (split_words ua f x) ++ map_words ua f y).
Proof.
  intros Hy. induction x as [|c x IH]; simpl.
  - destruct y as [|c y]; [done|]. simpl in Hy.
    rewrite map_words_sep by done. unfold map_words. simpl.
    destruct (split_words ua f y) as [w out]. by rewrite Hy.
  - rewrite IH. destruct (split_words ua f x) as [w out]. simpl.
    destruct (is_word ua c); [done|]. cbn [fst snd app]. by rewrite app_assoc.
Qed.

(** [map_words] splits at every place that is not inside a word. *)
Lemma map_words_app_head f x y :
  head_is_word ua y = false ->
  map_words ua f (x ++ y) = map_words ua f x ++ map_words ua f y.
Proof.
  intros Hy. unfold map_words at 1 2. rewrite split_words_app_sep by done.
  destruct (split_words ua f x) as [w out]. simpl. by rewrite app_assoc.
Qed.

Lemma map_words_app_last f x y :
  last_is_word ua false x = false ->
  map_words ua f (x ++ y) = map_words ua f x ++ map_words ua f y.
Proof.
  destruct x as [|c x _] using rev_ind; [done|].
  rewrite last_is_word_snoc. intros Hc.
  rewrite <- app_assoc. cbn [app].
  rewrite !map_words_app_head by (by simpl).
  rewrite !map_words_sep by done.
  by rewrite <- app_assoc.
Qed.

Lemma split_words_word f w :
  word_only ua w = true -> split_words ua f w = (w, []).
Proof.
  induction w as [|c w IH]; intros Hw; simpl in *; [done|].
  apply andb_true_iff in Hw as [Hc Hw]. by rewrite IH, Hc.
Qed.

Lemma map_words_word f w :
  word_only ua w = true -> map_words ua f w = on_word f w.
Proof.
  intros Hw. unfold map_words. rewrite split_words_word by done.
  apply app_nil_r.
Qed.

Lemma is_a_word_spec w :
  is_a_word ua w = true <-> w <> [] /\ word_only ua w = true.
Proof.
  unfold is_a_word. rewrite andb_true_iff, negb_true_iff, bool_decide_eq_false.
  done.
Qed.

Lemma split_words_ext f g s :
  (forall w, f w = g w) -> split_words ua f s = split_words ua g s.
Proof.
  intros E. induction s as [|c s IH]; simpl; [done|].
  rewrite IH. destruct (split_words ua g s) as [w out].
  destruct w; simpl; by rewrite ?E.
Qed.

Lemma map_words_ext f g s :
  (forall w, f w = g w) -> map_words ua f s = map_words ua g s.
Proof.
  intros E. unfold map_words. rewrite (split_words_ext f g) by done.
  destruct (split_words ua g s) as [w out]. destruct w; simpl; by rewrite ?E.
Qed.

(** Two passes are one pass, as long as the first turns words into words. *)
Lemma split_words_compose f g s :
  (forall w, is_a_word ua w = true -> is_a_word ua (f w) = true) ->
  split_words ua (fun w => g (f w)) s
  = (fst (split_words ua f s), map_words ua g (snd (split_words ua f s))).
Proof.
  intros Hf. induction s as [|c s IH]; simpl; [done|].
  rewrite IH. pose proof (split_words_fst f s) as Hw.
  pose proof (split_words_snd f s) as Hout.
  destruct (split_words ua f s) as [w out]. simpl in *.
  destruct (is_word ua c) eqn:Hc; [done|]. simpl. f_equal.
  rewrite map_words_sep by done. f_equal.
  rewrite map_words_app_head by done. f_equal.
  destruct w as [|c' w]; [done|]. cbn [on_word].
  assert (Hfw : is_a_word ua (f (c' :: w)) = true).
  { apply Hf. by apply is_a_word_spec. }
  apply is_a_word_spec in Hfw as [Hne Hfw].
  rewrite map_words_word by done. by destruct (f (c' :: w)).
Qed.

Lemma map_words_compose f g s :
  (forall w, is_a_word ua w = true -> is_a_word ua (f w) = true) ->
  map_words ua g (map_words ua f s) = map_words ua (fun w => g (f w)) s.
Proof.
  intros Hf. unfold map_words at 2 3.
  rewrite (split_words_compose f g s) by done.
  pose proof (split_words_fst f s) as Hw.
  pose proof (split_words_snd f s) as Hout.
  destruct (split_words ua f s) as [w out]. simpl in *.
  rewrite map_words_app_head by done. f_equal.
  destruct w as [|c' w]; [done|]. cbn [on_word].
  assert (Hfw : is_a_word ua (f (c' :: w)) = true).
  { apply Hf. by apply is_a_word_spec. }
  apply is_a_word_spec in Hfw as [Hne Hfw].
  rewrite map_words_word by done. by destruct (f (c' :: w)).
Qed.

(** A pass that changes none of the words of a text returns the text. *)
Lemma split_words_fixed f s :
  fst (split_words ua f s) = fst (split_list ua s) /\
  ((forall v, v ∈ snd (split_list ua s) -> f v = v) ->
   s = fst (split_words ua f s) ++ snd (split_words ua f s)).
Proof.
  induction s as [|c s IH]; simpl; [done|].
  destruct (split_words ua f s) as [w out], (split_list ua s) as [w' ws].
  simpl in *. destruct IH as [<- IH].
  destruct (is_word ua c); simpl.
  - split; [done|]. intros H. f_equal. by apply IH.
  - split; [done|]. intros H. f_equal.
    rewrite IH at 1 by (intros v Hv; apply H, elem_of_app; by right).
    f_equal. destruct w as [|c' w]; [done|]. simpl.
    symmetry. apply H, elem_of_app. left. simpl. apply list_elem_of_singleton. done.
Qed.

Lemma map_words_fixed f s :
  (forall w, w ∈ words ua s -> f w = w) -> map_words ua f s = s.
Proof.
  unfold map_words, words. intros H.
  destruct (split_words_fixed f s) as [E Hs].
  destruct (split_words ua f s) as [w out], (split_list ua s) as [w' ws].
  simpl in *. subst w'.
  transitivity (w ++ out);
    [|symmetry; apply Hs; intros v Hv; apply H, elem_of_app; by right].
  f_equal. destruct w as [|c w]; [done|]. simpl.
  apply H, elem_of_app. left. simpl. by apply list_elem_of_singleton.
Qed.

End WordLemmas.

(** ** [fix_spelling] as one pass over the words *)

Section Rewriter.

Variable ua : char -> bool.

Lemma fix_entry_rules k ms code :
  fix_entry ua k ms code
  = fold_left (apply_rule ua)
      (List.map (fun m => (m, k))
         (List.filter (fun m => negb (bool_decide (m = k))) ms)) code.
Proof.
  unfold fix_entry. revert code.
  induction ms as [|m ms IH]; intros code; [done|].
  cbn [fold_left List.filter]. rewrite IH.
  destruct (decide (m = k)) as [E|NE].
  - by rewrite bool_decide_eq_true_2.
  - by rewrite bool_decide_eq_false_2.
Qed.

Lemma fix_spelling_rules self code :
  fix_spelling ua self code = fold_left (apply_rule ua) (rules self) code.
Proof.
  unfold fix_spelling, rules. generalize (items self) as its. intros its.
  revert code. induction its as [|e its IH]; intros code; [done|].
  cbn [fold_left rules_of flat_map]. rewrite fold_left_app.
  rewrite IH. by rewrite fix_entry_rules.
Qed.

Lemma subst1_word m k w :
  is_a_word ua k = true -> is_a_word ua w = true ->
  is_a_word ua (subst1 m k w) = true.
Proof. intros Hk Hw. unfold subst1. by case_decide. Qed.

Lemma fix_word_word rs w :
  forallb (rule_ok ua) rs = true -> is_a_word ua w = true ->
  is_a_word ua (fix_word rs w) = true.
Proof.
  revert w. induction rs as [|r rs IH]; intros w Hrs Hw; [done|].
  simpl in Hrs. apply andb_true_iff in Hrs as [Hr Hrs].
  apply andb_true_iff in Hr as [_ Hk].
  apply (IH _ Hrs). by apply subst1_word.
Qed.

(** The cumulative substitutions amount to rewriting every word by
    [fix_word], when both sides of every rule are words. *)
Lemma fold_rules_words rs s :
  forallb (rule_ok ua) rs = true ->
  fold_left (apply_rule ua) rs s = map_words ua (fix_word rs) s.
Proof.
  revert s. induction rs as [|r rs IH]; intros s Hrs.
  - simpl. symmetry. by apply map_words_fixed.
  - simpl in Hrs. apply andb_true_iff in Hrs as [Hr Hrs].
    apply andb_true_iff in Hr as [Hm Hk].
    cbn [fold_left]. rewrite IH by done. unfold apply_rule.
    apply is_a_word_spec in Hm as [Hne Hm].
    rewrite re_sub_map_words by done.
    rewrite map_words_compose; [done|].
    intros w Hw. by apply subst1_word.
Qed.

Lemma fix_spelling_words self s :
  forallb (rule_ok ua) (rules self) = true ->
  fix_spelling ua self s = map_words ua (fix_word (rules self)) s.
Proof. intros H. rewrite fix_spelling_rules. by apply fold_rules_words. Qed.

End Rewriter.

(** ** Rules on single words *)

Lemma fix_word_cons r rs w :
  fix_word (r :: rs) w = fix_word rs (subst1 (fst r) (snd r) w).
Proof. done. Qed.

Lemma fix_word_unlisted rs w :
  w ∉ List.map fst rs -> fix_word rs w = w.
Proof.
  induction rs as [|r rs IH]; intros H; [done|].
  simpl in H. apply not_elem_of_cons in H as [Hr H].
  rewrite fix_word_cons. unfold subst1.
  rewrite decide_False by done. by apply IH.
Qed.

Lemma fix_word_cases rs w :
  fix_word rs w = w \/ fix_word rs w ∈ List.map snd rs.
Proof.
  revert w. induction rs as [|r rs IH]; intros w; [by left|].
  rewrite fix_word_cons. unfold subst1. cbn [List.map].
  destruct (decide (w = fst r)) as [E|NE].
  - right. destruct (IH (snd r)) as [H|H].
    + rewrite H. apply list_elem_of_here.
    + by apply list_elem_of_further.
  - destruct (IH w) as [H|H]; [by left|right].
    by apply list_elem_of_further.
Qed.

Lemma canonical_in_unlisted its w :
  w ∉ List.map fst (rules_of its) -> canonical_in its w = w.
Proof.
  induction its as [|[k ms] its IH]; intros H; [done|].
  cbn [rules_of flat_map] in H. rewrite List.map_app in H.
  apply not_elem_of_app in H as [H1 H2].
  simpl. destruct (decide (w ∈ ms)) as [Hin|Hout]; [|by apply IH].
  destruct (decide (w = k)) as [E|NE]; [done|].
  exfalso. apply H1. simpl. apply list_elem_of_In, in_map_iff.
  exists (w, k). split; [done|]. apply in_map_iff. exists w. split; [done|].
  apply filter_In. split; [by apply list_elem_of_In|].
  by rewrite bool_decide_eq_false_2.
Qed.

(** ** The table and its entries *)

(** [alternates]: the spellings listed in some entry other than its key. *)
Lemma alternates_spec self m :
  m ∈ alternates self <->
  exists k ms, (k, ms) ∈ items self /\ m ∈ ms /\ m <> k.
Proof.
  unfold alternates, rules, rules_of.
  rewrite list_elem_of_In, in_map_iff. split.
  - intros ([m' k] & <- & Hr). apply in_flat_map in Hr as ([k' ms] & He & Hr).
    apply in_map_iff in Hr as (m0 & [= -> ->] & Hf).
    apply filter_In in Hf as [Hm Hne]. simpl in *.
    apply negb_true_iff, bool_decide_eq_false in Hne.
    exists k, ms. by rewrite !list_elem_of_In.
  - intros (k & ms & He & Hm & Hne). exists (m, k). split; [done|].
    apply in_flat_map. exists (k, ms). split; [by apply list_elem_of_In|].
    apply in_map_iff. exists m. split; [done|].
    apply filter_In. split; [by apply list_elem_of_In|].
    simpl. by rewrite bool_decide_eq_false_2.
Qed.

Lemma find_key_elem k r d : find_key k d = Some r -> (k, r) ∈ d.
Proof.
  induction d as [|[k' r'] d IH]; simpl; [done|].
  case_decide as E.
  - intros [= ->]. subst. apply list_elem_of_here.
  - intros H. apply list_elem_of_further. by apply IH.
Qed.

Lemma get_misspellings_items self k m :
  m ∈ get_misspellings self k ->
  exists ms, (k, ms) ∈ items self /\ m ∈ ms.
Proof.
  unfold get_misspellings, items.
  destruct (find_key k (keyword_mappings self)) as [r|] eqn:Hk.
  - intros Hm. exists (obj self r). split; [|done].
    apply find_key_elem in Hk.
    apply list_elem_of_In, in_map_iff. exists (k, r).
    split; [done|]. by apply list_elem_of_In.
  - intros H. by apply elem_of_nil in H.
Qed.

(** ** The built-in table *)

Section Seed.

Variable ua : char -> bool.

Lemma rules_init_ok : forallb (rule_ok ua) (rules init) = true.
Proof. vm_compute. reflexivity. Qed.

Lemma rules_init_listed :
  Forall (fun r => fix_word (rules init) (fst r) = canonical_of init (fst r))
         (rules init).
Proof. settle_by_eval. Qed.

Lemma rules_init_stable :
  Forall (fun r => fix_word (rules init) (snd r) = snd r) (rules init).
Proof. settle_by_eval. Qed.

Lemma items_init_canonical :
  Forall (fun e => Forall (fun m => canonical_of init m = fst e) (snd e))
         (items init).
Proof. settle_by_eval. Qed.

(** No keyword holds a backslash, so each is its own replacement template. *)
Lemma keywords_init_plain :
  forallb (fun k => negb (existsb (N.eqb 92) k)) (keywords init) = true.
Proof. vm_compute. reflexivity. Qed.

Lemma items_init_words :
  forallb (fun e => forallb (is_a_word ua) (snd e)) (items init) = true.
Proof. vm_compute. reflexivity. Qed.

(** On the built-in table the successive rules send every word to the
    keyword of the entry that lists it. *)
Lemma fix_word_init w : fix_word (rules init) w = canonical_of init w.
Proof.
  destruct (decide (w ∈ List.map fst (rules init))) as [Hin|Hout].
  - apply list_elem_of_In, in_map_iff in Hin as (r & <- & Hr).
    apply list_elem_of_In in Hr.
    by apply (proj1 (Forall_forall _ _) rules_init_listed).
  - rewrite fix_word_unlisted by done.
    symmetry. by apply canonical_in_unlisted.
Qed.

Lemma fix_word_init_idem w :
  fix_word (rules init) (fix_word (rules init) w) = fix_word (rules init) w.
Proof.
  destruct (fix_word_cases (rules init) w) as [E|Hin]; [by rewrite !E|].
  apply list_elem_of_In, in_map_iff in Hin as (r & <- & Hr).
  apply list_elem_of_In in Hr.
  by apply (proj1 (Forall_forall _ _) rules_init_stable).
Qed.

(** [fix_spelling] rewrites the words of the text, each one on its own. *)
Lemma fix_spelling_init_words s :
  fix_spelling ua init s = map_words ua (canonical_of init) s.
Proof.
  rewrite fix_spelling_words by apply rules_init_ok.
  apply map_words_ext, fix_word_init.
Qed.

Lemma canonical_of_init_entry k m :
  m ∈ get_misspellings init k -> canonical_of init m = k.
Proof.
  intros H. apply get_misspellings_items in H as (ms & He & Hm).
  pose proof (proj1 (Forall_forall _ _) items_init_canonical _ He) as HF.
  by apply (proj1 (Forall_forall _ _) HF).
Qed.

Lemma entry_init_word k m :
  m ∈ get_misspellings init k -> is_a_word ua m = true.
Proof.
  intros H. apply get_misspellings_items in H as (ms & He & Hm).
  pose proof items_init_words as HF.
  rewrite forallb_forall in HF. apply list_elem_of_In in He, Hm.
  specialize (HF _ He). rewrite forallb_forall in HF. by apply HF.
Qed.

(** A registered spelling that stands as a word of its own becomes its
    keyword; what is around it is corrected as if it stood alone. *)
Lemma fix_spelling_init_embedded k m pre post :
  m ∈ get_misspellings init k ->
  last_is_word ua false pre = false -> head_is_word ua post = false ->
  fix_spelling ua init (pre ++ m ++ post)
  = fix_spelling ua init pre ++ k ++ fix_spelling ua init post.
Proof.
  intros Hm Hpre Hpost. rewrite !fix_spelling_init_words.
  rewrite map_words_app_last by done.
  rewrite map_words_app_head by done.
  pose proof (entry_init_word _ _ Hm) as Hw.
  apply is_a_word_spec in Hw as [Hne Hw].
  rewrite (map_words_word ua _ m) by done.
  destruct m as [|c m]; [done|]. cbn [on_word].
  by rewrite (canonical_of_init_entry k).
Qed.

End Seed.

(** ** The mutators *)

Local Close Scope N_scope.

Lemma find_key_assign k r d k' :
  find_key k' (assign k r d)
  = if decide (k = k') then Some r else find_key k' d.
Proof.
  induction d as [|[k0 r0] d IH]; simpl.
  - by repeat case_decide.
  - repeat (case_decide; simpl; subst); try done; try congruence.
Qed.

Lemma obj_insert st d r l r' :
  obj (Interp (<[r := l]> st) d) r'
  = if decide (r = r' /\ r < List.length st) then l else obj (Interp st d) r'.
Proof.
  unfold obj. simpl. rewrite list_lookup_insert. by case_decide.
Qed.

Lemma obj_grow st d l r :
  r < List.length st -> obj (Interp (st ++ [l]) d) r = obj (Interp st d) r.
Proof. intros H. unfold obj. simpl. by rewrite lookup_app_l. Qed.

Lemma obj_fresh st d l : obj (Interp (st ++ [l]) d) (List.length st) = l.
Proof. unfold obj. simpl. by rewrite list_lookup_middle. Qed.

Lemma table_ok_valid self : table_ok self -> refs_valid self.
Proof. intros H k r Hk. by apply (H k r). Qed.

Lemma table_ok_init : table_ok init.
Proof.
  assert (H : Forall (fun kr => snd kr < List.length (store init)
                                /\ fst kr ∈ obj init (snd kr))
                     (keyword_mappings init)).
  { settle_by_eval. }
  intros k r Hk. apply find_key_elem in Hk.
  by apply (proj1 (Forall_forall _ _) H (k, r)).
Qed.

Lemma table_ok_new_list l self :
  table_ok self -> table_ok (snd (new_list l self)).
Proof.
  intros H k r Hk. destruct self as [st d]. simpl in *.
  destruct (H k r Hk) as [Hr Hin]. simpl in Hr.
  rewrite length_app, obj_grow by done. split; [lia|done].
Qed.

Lemma table_ok_add_misspelling k m self :
  table_ok self -> table_ok (snd (add_misspelling self k m)).
Proof.
  intros H. unfold add_misspelling.
  destruct (find_key k (keyword_mappings self)) as [r|] eqn:Hk; [|done].
  case_decide as Hm; [done|].
  intros k' r' Hk'. destruct self as [st d]. simpl in *.
  destruct (H k' r' Hk') as [Hr' Hin]. simpl in Hr'.
  rewrite length_insert, obj_insert. split; [done|].
  case_decide as E; [|done]. destruct E as [-> _].
  apply elem_of_app. by left.
Qed.

Lemma table_ok_add_keyword_default k self :
  table_ok self -> table_ok (add_keyword self k None).
Proof.
  intros H k' r' Hk'. destruct self as [st d]. simpl in *.
  rewrite find_key_assign in Hk'. rewrite length_app. simpl.
  case_decide as E.
  - injection Hk' as <-. subst k'. rewrite obj_fresh.
    split; [lia|]. apply list_elem_of_here.
  - destruct (H k' r' Hk') as [Hr' Hin]. simpl in Hr'.
    rewrite obj_grow by done. split; [lia|done].
Qed.

Lemma table_ok_add_keyword_list k r self :
  table_ok self -> r < List.length (store self) ->
  table_ok (add_keyword self k (Some r)).
Proof.
  intros H Hr k' r' Hk'. destruct self as [st d]. simpl in *.
  rewrite find_key_assign in Hk'.
  destruct (decide (k ∈ obj (Interp st d) r)) as [Hin|Hout].
  - case_decide as E; [|by apply (H k' r')].
    injection Hk' as <-. by subst k'.
  - rewrite length_insert, obj_insert.
    case_decide as E.
    + injection Hk' as <-. subst k'. split; [done|].
      rewrite decide_True by done. apply list_elem_of_here.
    + destruct (H k' r' Hk') as [Hr' Hin]. split; [done|].
      case_decide as E'; [|done]. destruct E' as [-> _].
      by apply list_elem_of_further.
Qed.

Lemma reachable_table_ok ok self : reachable_from ok self -> table_ok self.
Proof.
  induction 1 as [|l self _ IH _|k m self _ IH|k self _ IH|k r self _ IH Hr].
  - apply table_ok_init.
  - by apply table_ok_new_list.
  - by apply table_ok_add_misspelling.
  - by apply table_ok_add_keyword_default.
  - by apply table_ok_add_keyword_list.
Qed.

Lemma obj_dup_free self r : store_dup_free self -> NoDup (obj self r).
Proof.
  intros H. unfold obj. destruct (store self !! r) as [l|] eqn:E; simpl.
  - by apply (Forall_lookup_1 _ _ _ _ H E).
  - apply NoDup_nil_2.
Qed.

Lemma reachable_dup_free self :
  reachable_from NoDup self -> store_dup_free self.
Proof.
  unfold store_dup_free.
  induction 1 as [|l self _ IH Hl|k m self _ IH|k self _ IH|k r self _ IH Hr].
  - settle_by_eval.
  - simpl. apply Forall_app. split; [done|]. by apply Forall_singleton.
  - unfold add_misspelling.
    destruct (find_key k (keyword_mappings self)) as [r|]; [|done].
    case_decide as Hm; [done|]. simpl.
    apply Forall_insert; [done|].
    apply NoDup_app. split; [by apply obj_dup_free|].
    split; [|apply NoDup_singleton].
    intros x Hx Hx'. apply list_elem_of_singleton in Hx'. by subst.
  - simpl. apply Forall_app. split; [done|].
    apply Forall_singleton, NoDup_singleton.
  - simpl. case_decide as Hk; [done|].
    apply Forall_insert; [done|].
    apply NoDup_cons. split; [done|]. by apply obj_dup_free.
Qed.

(** * The claims *)

(** C7: [add_misspelling] returns [True] exactly when the keyword is a key
    of the table and returns [False], leaving the table as it was, when it is
    not; for a known keyword the misspelling is appended to the entry unless
    the entry has it already, and a second identical call changes nothing. *)
Theorem add_misspelling_contract self k m (Hok : refs_valid self) :
  (fst (add_misspelling self k m) = true <-> has_key self k) /\
  (~ has_key self k -> add_misspelling self k m = (false, self)) /\
  (has_key self k ->
   get_misspellings (snd (add_misspelling self k m)) k
   = if decide (m ∈ get_misspellings self k) then get_misspellings self k
     else get_misspellings self k ++ [m]) /\
  add_misspelling (snd (add_misspelling self k m)) k m
  = add_misspelling self k m.
Proof.
  unfold has_key, get_misspellings, add_misspelling.
  destruct (find_key k (keyword_mappings self)) as [r|] eqn:Hk.
  - pose proof (Hok _ _ Hk) as Hr.
    destruct (decide (m ∈ obj self r)) as [Hin|Hout].
    + simpl. rewrite Hk. rewrite !decide_True by done.
      split; [by split; eauto|]. split; [|done].
      intros H. exfalso. apply H. by eexists.
    + simpl. rewrite Hk. destruct self as [st d]. simpl in *.
      rewrite !obj_insert. rewrite !decide_True by done.
      rewrite decide_True by (apply elem_of_app; right; apply list_elem_of_here).
      split; [by split; eauto|]. split; [|done].
      intros H. exfalso. apply H. by eexists.
  - simpl. rewrite Hk. split; [|split; [done|split; [|done]]].
    + split; [done|]. intros H. by apply is_Some_None in H.
    + intros H. by apply is_Some_None in H.
Qed.

Lemma add_misspelling_contract_witness :
  refs_valid init /\
  fst (add_misspelling init (py "def") (py "newdef")) = true /\
  get_misspellings (snd (add_misspelling init (py "def") (py "newdef")))
                   (py "def")
  = [py "def"; py "deff"; py "define"; py "defin"; py "newdef"].
Proof.
  pose proof (table_ok_valid init table_ok_init) as Hv.
  destruct (add_misspelling_contract init (py "def") (py "newdef") Hv)
    as (H1 & _ & H3 & _).
  split; [exact Hv|]. split.
  - apply H1. vm_compute. by eexists.
  - rewrite H3 by (vm_compute; by eexists). vm_compute. reflexivity.
Defined.

(** C8: [add_keyword] without a list binds the keyword to the one-element
    list of the keyword itself; with a list it binds the keyword to that
    list, whatever entry there was before, after putting the keyword in front
    of it when the list lacks it.  No other key is rebound. *)
Theorem add_keyword_contract self k r
    (Hr : r < List.length (store self)) :
  get_misspellings (add_keyword self k None) k = [k] /\
  get_misspellings (add_keyword self k (Some r)) k
  = (if decide (k ∈ obj self r) then obj self r else k :: obj self r) /\
  (forall arg k', k' <> k ->
     find_key k' (keyword_mappings (add_keyword self k arg))
     = find_key k' (keyword_mappings self)).
Proof.
  destruct self as [st d]. unfold get_misspellings. simpl in *.
  rewrite !find_key_assign, !decide_True by done.
  split; [apply obj_fresh|]. split.
  - case_decide as Hk; [done|].
    rewrite obj_insert. by rewrite decide_True.
  - intros [r'|] k' Hne; simpl; rewrite find_key_assign;
      by rewrite decide_False.
Qed.

Lemma add_keyword_contract_witness :
  let self := snd (new_list [py "wrong1"; py "wrong2"] init) in
  24 < List.length (store self) /\
  get_misspellings (add_keyword self (py "testkw") None) (py "testkw")
  = [py "testkw"] /\
  get_misspellings (add_keyword self (py "correct") (Some 24)) (py "correct")
  = [py "correct"; py "wrong1"; py "wrong2"].
Proof.
  intros self.
  assert (Hr : 24 < List.length (store self)) by (vm_compute; lia).
  split; [exact Hr|]. split.
  - exact (proj1 (add_keyword_contract self (py "testkw") 24 Hr)).
  - rewrite (proj1 (proj2 (add_keyword_contract self (py "correct") 24 Hr))).
    vm_compute. reflexivity.
Defined.

(** C9, as stated: in every reachable table state every entry holds its
    keyword and no entry holds a spelling twice.  This fails: a list with a
    repeated spelling handed to [add_keyword] is stored as it is. *)
Lemma table_invariant_as_stated_fails :
  ~ (forall self, reachable self ->
       entries_have_keyword self /\ entries_dup_free self).
Proof.
  intros H.
  pose (self := snd (new_list [py "twice"; py "twice"] init)).
  assert (Hs : reachable (add_keyword self (py "kw") (Some 24))).
  { apply reach_add_keyword_list; [|vm_compute; lia].
    apply reach_new_list; [apply reach_init|exact I]. }
  destruct (H _ Hs) as [_ Hd].
  assert (Hk : has_key (add_keyword self (py "kw") (Some 24)) (py "kw")).
  { vm_compute. by eexists. }
  specialize (Hd _ Hk). vm_compute in Hd.
  apply NoDup_cons in Hd as [_ Hd]. apply NoDup_cons in Hd as [Hd _].
  apply Hd, list_elem_of_here.
Qed.

(** C9, amended: in every table state reached from the built-in table by
    calls of [add_misspelling] and [add_keyword] every entry holds its
    keyword; and no entry holds a spelling twice as long as the lists the
    caller builds for [add_keyword] hold none twice. *)
Theorem table_invariant self :
  (reachable self -> entries_have_keyword self) /\
  (reachable_from NoDup self -> entries_dup_free self).
Proof.
  split.
  - intros H k [r Hk]. apply reachable_table_ok in H.
    unfold get_misspellings. rewrite Hk. by apply (H k r).
  - intros H k [r Hk]. apply reachable_dup_free in H.
    unfold get_misspellings. rewrite Hk. by apply obj_dup_free.
Qed.

Lemma table_invariant_witness :
  let self :=
    add_keyword (snd (new_list [py "newkw"; py "nkw"]
                        (snd (add_misspelling init (py "def") (py "newdef")))))
                (py "newkeyword") (Some 24) in
  (reachable self /\ entries_have_keyword self) /\
  (reachable_from NoDup self /\ entries_dup_free self).
Proof.
  intros self.
  assert (H : forall ok, ok [py "newkw"; py "nkw"] -> reachable_from ok self).
  { intros ok Hl. apply reach_add_keyword_list; [|vm_compute; lia].
    apply reach_new_list; [|exact Hl].
    apply reach_add_misspelling, reach_init. }
  assert (H1 : reachable self) by (apply H; exact I).
  assert (H2 : reachable_from NoDup self).
  { apply H. settle_by_eval. }
  split.
  - split; [exact H1|]. exact (proj1 (table_invariant self) H1).
  - split; [exact H2|]. exact (proj2 (table_invariant self) H2).
Defined.

(** C1: for every keyword of the built-in table and every spelling
    registered for it, [fix_spelling] of the spelling alone is the keyword,
    and [fix_spelling] of a text where the spelling stands as a word of its
    own (no word character right before or right after it) has the keyword in
    its place. *)
Theorem exact_table_coverage ua k m pre post :
  m ∈ get_misspellings init k ->
  last_is_word ua false pre = false ->
  head_is_word ua post = false ->
  fix_spelling ua init m = k /\
  fix_spelling ua init (pre ++ m ++ post)
  = fix_spelling ua init pre ++ k ++ fix_spelling ua init post.
Proof.
  intros Hm Hpre Hpost. split; [|by apply fix_spelling_init_embedded].
  pose proof (fix_spelling_init_embedded ua k m [] [] Hm eq_refl eq_refl) as H.
  rewrite !app_nil_r in H. exact H.
Qed.

Lemma exact_table_coverage_witness :
  fix_spelling (fun _ => false) init (py "define") = py "def" /\
  fix_spelling (fun _ => false) init (py "x = [" ++ py "define" ++ py "]")
  = fix_spelling (fun _ => false) init (py "x = [") ++ py "def"
    ++ fix_spelling (fun _ => false) init (py "]").
Proof.
  apply (exact_table_coverage (fun _ => false) (py "def") (py "define")
           (py "x = [") (py "]")).
  - settle_by_eval.
  - vm_compute. reflexivity.
  - vm_compute. reflexivity.
Defined.

(** C4: [fix_spelling] rewrites whole words only, and only words that equal a
    registered spelling character for character: its result is the text with
    every word replaced by the keyword of the entry that lists it.  So
    [define_function = 1] and [DEFF hello():] come back unchanged. *)
Theorem whole_word_case_sensitive ua :
  (forall s, fix_spelling ua init s = map_words ua (canonical_of init) s) /\
  fix_spelling ua init (py "define_function = 1") = py "define_function = 1" /\
  fix_spelling ua init (py "DEFF hello():") = py "DEFF hello():".
Proof.
  split; [apply fix_spelling_init_words|].
  split; vm_compute; reflexivity.
Qed.

(** C5: quoted text is corrected like any other text: a registered spelling
    between quotation marks becomes its keyword, and
    [print("deff is not a function")] becomes
    [print("def is not a function")]. *)
Theorem quoted_text_rewritten ua :
  (forall k m (q : char), m ∈ get_misspellings init k ->
     q = 34%N \/ q = 39%N ->
     fix_spelling ua init ([q] ++ m ++ [q]) = [q] ++ k ++ [q]) /\
  fix_spelling ua init
    (py "print(" ++ [34%N] ++ py "deff is not a function" ++ [34%N] ++ py ")")
  = py "print(" ++ [34%N] ++ py "def is not a function" ++ [34%N] ++ py ")".
Proof.
  split; [|vm_compute; reflexivity].
  intros k m q Hm Hq.
  rewrite (fix_spelling_init_embedded ua k m [q] [q] Hm).
  - by destruct Hq as [->| ->].
  - by destruct Hq as [->| ->].
  - by destruct Hq as [->| ->].
Qed.

Lemma quoted_text_rewritten_witness :
  fix_spelling (fun _ => false) init ([34%N] ++ py "deff" ++ [34%N])
  = [34%N] ++ py "def" ++ [34%N].
Proof.
  apply (proj1 (quoted_text_rewritten (fun _ => false))
           (py "def") (py "deff") 34%N).
  - settle_by_eval.
  - left. reflexivity.
Defined.

(** C6: a text none of whose words is a registered spelling other than a
    keyword comes back unchanged. *)
Theorem canonical_text_unchanged ua s :
  Forall (fun w => w ∉ alternates init) (words ua s) ->
  fix_spelling ua init s = s.
Proof.
  intros H. rewrite fix_spelling_init_words.
  apply map_words_fixed. intros w Hw.
  apply canonical_in_unlisted.
  by apply (proj1 (Forall_forall _ _) H).
Qed.

Lemma canonical_text_unchanged_witness :
  fix_spelling (fun _ => false) init (py "print('x')") = py "print('x')".
Proof.
  apply (canonical_text_unchanged (fun _ => false) (py "print('x')")).
  settle_by_eval.
Defined.

(** C10: on the built-in table [fix_spelling] is idempotent, for every text;
    no keyword of the table is registered as a misspelling. *)
Theorem fix_spelling_idempotent ua s :
  fix_spelling ua init (fix_spelling ua init s) = fix_spelling ua init s /\
  Forall (fun k => k ∉ alternates init) (keywords init).
Proof.
  split; [|settle_by_eval].
  rewrite !fix_spelling_words by apply rules_init_ok.
  rewrite map_words_compose.
  - apply map_words_ext, fix_word_init_idem.
  - intros w. apply fix_word_word, rules_init_ok.
Qed.

(** C2: with fuzzy matching on, [printt] is matched to [print], [de] has no
    match, and [deffffffffffffff] has none because it is longer than twice
    the longest keyword; with fuzzy matching off no word has a match. *)
Theorem fuzzy_threshold_behaviour :
  find_fuzzy_match true init (py "printt") = Some (py "print") /\
  find_fuzzy_match true init (py "de") = None /\
  (find_fuzzy_match true init (py "deffffffffffffff") = None /\
   2 * longest (keywords init) < List.length (py "deffffffffffffff")) /\
  (forall self word, find_fuzzy_match false self word = None).
Proof.
  split; [vm_compute; reflexivity|].
  split; [vm_compute; reflexivity|].
  split; [|done].
  split; [vm_compute; reflexivity|vm_compute; lia].
Qed.

Lemma correct_options_cons ua arg rest :
  correct_options ua (arg :: rest)
  = (default arg (correct_one ua arg) :: fst (correct_options ua rest),
     match correct_one ua arg with
     | Some fixed => (arg, fixed) :: snd (correct_options ua rest)
     | None => snd (correct_options ua rest)
     end).
Proof.
  simpl. destruct (correct_options ua rest) as [out made].
  by destruct (correct_one ua arg).
Qed.

Lemma keep_best_fold word voc best sc :
  fold_left (keep_best word) voc best = Some sc ->
  tok sc ∈ voc \/ best = Some sc.
Proof.
  revert best. induction voc as [|c voc IH]; intros best Hf; [by right|].
  simpl in Hf. destruct (IH _ Hf) as [Hin|Hk].
  - left. by apply list_elem_of_further.
  - unfold keep_best in Hk.
    destruct (accepts (similarity word c)); [|by right].
    destruct best as [b|].
    + destruct (beats (similarity word c) b); [|by right].
      injection Hk as <-. left. apply list_elem_of_here.
    + injection Hk as <-. left. apply list_elem_of_here.
Qed.

(** The fuzzy matcher answers with a token of its vocabulary. *)
Lemma fuzzy_best_in tokens word k :
  fuzzy_best tokens word = Some k -> k ∈ tokens.
Proof.
  unfold fuzzy_best. case (_ || _); [done|].
  destruct (fold_left (keep_best word) tokens None) as [sc|] eqn:Hf; [|done].
  intros [= <-]. by destruct (keep_best_fold _ _ _ _ Hf).
Qed.

Lemma exact_option_in d name k :
  exact_option d name = Some k -> k ∈ List.map fst d.
Proof.
  induction d as [|[k0 ms] d IH]; simpl; [done|].
  case_decide.
  - intros [= ->]. apply list_elem_of_here.
  - intros H'. apply list_elem_of_further. by apply IH.
Qed.

Lemma correct_one_Some ua arg fixed :
  correct_one ua arg = Some fixed ->
  fixed <> arg /\ is_Some (long_option_name ua arg) /\
  exists k, k ∈ List.map fst option_mappings /\ fixed = py "--" ++ k.
Proof.
  unfold correct_one.
  destruct (long_option_name ua arg) as [name|]; [|done].
  destruct (find_option_match name) as [k|] eqn:Hk; [|done].
  case_decide as E; [done|]. intros [= <-].
  split; [done|]. split; [by eexists|]. exists k. split; [|done].
  unfold find_option_match in Hk.
  destruct (exact_option option_mappings name) as [k'|] eqn:Hx.
  - injection Hk as ->. by apply exact_option_in in Hx.
  - by apply fuzzy_best_in in Hk.
Qed.

(** C3: [--halp] is corrected to [--help] and the pair is recorded; a short
    option and a positional argument pass through, and so does the unknown
    long option [--unknown].  For every argument sequence the result is the
    sequence itself with each argument kept or replaced on its own, so nothing
    is added, dropped or moved; the recorded pairs are the replacements, in
    order; and an argument is only ever replaced by the canonical spelling of
    a long option, when it has the shape of a long option and differs from
    that spelling. *)
Theorem option_correction ua :
  correct_options ua [py "--halp"]
  = ([py "--help"], [(py "--halp", py "--help")]) /\
  correct_options ua [py "-i"; py "test.py"] = ([py "-i"; py "test.py"], []) /\
  correct_options ua [py "--unknown"] = ([py "--unknown"], []) /\
  (forall args,
     fst (correct_options ua args)
     = List.map (fun arg => default arg (correct_one ua arg)) args /\
     snd (correct_options ua args)
     = omap (fun arg => pair arg <$> correct_one ua arg) args) /\
  (forall arg,
     correct_one ua arg = None \/
     exists k, k ∈ List.map fst option_mappings /\
               is_Some (long_option_name ua arg) /\
               py "--" ++ k <> arg /\
               correct_one ua arg = Some (py "--" ++ k)).
Proof.
  split; [vm_compute; reflexivity|].
  split; [vm_compute; reflexivity|].
  split; [vm_compute; reflexivity|].
  split.
  - induction args as [|arg rest [IH1 IH2]]; [done|].
    rewrite correct_options_cons. cbn [fst snd List.map].
    rewrite IH1, IH2. split; [done|].
    destruct (correct_one ua arg) as [fixed|] eqn:Hc; simpl; by rewrite Hc.
  - intros arg. destruct (correct_one ua arg) as [fixed|] eqn:Hc; [|by left].
    right. apply correct_one_Some in Hc as (Hne & Hlong & k & Hk & ->).
    by exists k.
Qed.

(** * Further properties of the table and of [fix_spelling] *)

Section MoreText.

Variable ua : char -> bool.

Lemma sub_scan_no_word m repl s :
  no_word ua s = true -> sub_scan ua m repl false O s = s.
Proof.
  induction s as [|c s IH]; intros Hs.
  - by destruct m.
  - simpl in Hs. apply andb_true_iff in Hs as [Hc Hs].
    apply negb_true_iff in Hc.
    cbn [sub_scan]. unfold match_here. cbn [head_is_word].
    rewrite Hc. cbn [boundary xorb andb]. by rewrite IH.
Qed.

Lemma fold_rules_no_word rs s :
  no_word ua s = true -> fold_left (apply_rule ua) rs s = s.
Proof.
  intros Hs. induction rs as [|r rs IH]; [done|].
  cbn [fold_left]. unfold apply_rule at 2, re_sub.
  by rewrite sub_scan_no_word.
Qed.

Lemma words_sep c s :
  is_word ua c = false -> words ua (c :: s) = words ua s.
Proof.
  intros Hc. unfold words. simpl.
  destruct (split_list ua s) as [w ws]. by rewrite Hc.
Qed.

Lemma split_list_app_sep x y :
  head_is_word ua y = false ->
  split_list ua (x ++ y)
  = (fst (split_list ua x), snd (split_list ua x) ++ words ua y).
Proof.
  intros Hy. induction x as [|c x IH]; simpl.
  - destruct y as [|c y]; [done|]. simpl in Hy.
    rewrite words_sep by done. unfold words. simpl.
    destruct (split_list ua y) as [w ws]. by rewrite Hy.
  - rewrite IH. destruct (split_list ua x) as [w ws]. simpl.
    destruct (is_word ua c); [done|]. cbn [fst snd]. by rewrite app_assoc.
Qed.

Lemma words_app_head x y :
  head_is_word ua y = false -> words ua (x ++ y) = words ua x ++ words ua y.
Proof.
  intros Hy. unfold words at 1 2. rewrite split_list_app_sep by done.
  destruct (split_list ua x) as [w ws]. simpl. by rewrite app_assoc.
Qed.

Lemma words_word w : word_only ua w = true -> words ua w = opt_word w.
Proof.
  intros Hw. unfold words.
  assert (E : split_list ua w = (w, [])).
  { induction w as [|c w IH]; simpl in *; [done|].
    apply andb_true_iff in Hw as [Hc Hw]. by rewrite IH, Hc. }
  rewrite E. apply app_nil_r.
Qed.

Lemma words_on_word f w :
  (forall v, is_a_word ua v = true -> is_a_word ua (f v) = true) ->
  word_only ua w = true ->
  words ua (on_word f w) = List.map f (opt_word w).
Proof.
  intros Hf Hw. destruct w as [|c w]; [done|]. cbn [on_word opt_word List.map].
  assert (H : is_a_word ua (f (c :: w)) = true).
  { apply Hf. by apply is_a_word_spec. }
  apply is_a_word_spec in H as [Hne H].
  rewrite words_word by done. by destruct (f (c :: w)).
Qed.

Lemma split_list_fst s : word_only ua (fst (split_list ua s)) = true.
Proof.
  induction s as [|c s IH]; simpl; [done|].
  destruct (split_list ua s) as [w ws]. simpl in *.
  destruct (is_word ua c) eqn:Hc; simpl; [by rewrite Hc|done].
Qed.

(** The words of a rewritten text are the rewritten words of the text. *)
Lemma words_split f s :
  (forall v, is_a_word ua v = true -> is_a_word ua (f v) = true) ->
  fst (split_words ua f s) = fst (split_list ua s) /\
  words ua (snd (split_words ua f s)) = List.map f (snd (split_list ua s)).
Proof.
  intros Hf. induction s as [|c s [IH1 IH2]]; simpl; [done|].
  pose proof (split_words_snd ua f s) as Hout.
  pose proof (split_list_fst s) as Hw.
  destruct (split_words ua f s) as [w out], (split_list ua s) as [w' ws].
  simpl in *. subst w'.
  destruct (is_word ua c) eqn:Hc; simpl; [done|].
  split; [done|].
  rewrite words_sep by done. rewrite words_app_head by done.
  rewrite List.map_app, IH2. f_equal. by apply words_on_word.
Qed.

Lemma words_map_words f s :
  (forall v, is_a_word ua v = true -> is_a_word ua (f v) = true) ->
  words ua (map_words ua f s) = List.map f (words ua s).
Proof.
  intros Hf. unfold map_words, words at 2.
  destruct (words_split f s Hf) as [E1 E2].
  pose proof (split_words_snd ua f s) as Hout.
  pose proof (split_list_fst s) as Hw.
  destruct (split_words ua f s) as [w out], (split_list ua s) as [w' ws].
  simpl in *. subst w'.
  rewrite words_app_head by done.
  rewrite List.map_app, E2. f_equal. by apply words_on_word.
Qed.

Lemma separators_app x y :
  separators ua (x ++ y) = separators ua x ++ separators ua y.
Proof. apply List.filter_app. Qed.

Lemma separators_word w : word_only ua w = true -> separators ua w = [].
Proof.
  induction w as [|c w IH]; intros Hw; simpl in *; [done|].
  apply andb_true_iff in Hw as [Hc Hw]. rewrite Hc. simpl. by apply IH.
Qed.

Lemma separators_on_word f w :
  (forall v, is_a_word ua v = true -> is_a_word ua (f v) = true) ->
  word_only ua w = true -> separators ua (on_word f w) = [].
Proof.
  intros Hf Hw. destruct w as [|c w]; [done|]. cbn [on_word].
  assert (H : is_a_word ua (f (c :: w)) = true).
  { apply Hf. by apply is_a_word_spec. }
  apply is_a_word_spec in H as [_ H]. by apply separators_word.
Qed.

Lemma separators_split f s :
  (forall v, is_a_word ua v = true -> is_a_word ua (f v) = true) ->
  separators ua (snd (split_words ua f s)) = separators ua s.
Proof.
  intros Hf. induction s as [|c s IH]; simpl; [done|].
  pose proof (split_words_fst ua f s) as Hw.
  destruct (split_words ua f s) as [w out]. simpl in *.
  destruct (is_word ua c) eqn:Hc; simpl; [done|].
  rewrite Hc. simpl. f_equal.
  rewrite separators_app, IH.
  by rewrite (separators_on_word f w Hf Hw).
Qed.

(** Rewriting the words leaves every other character where it is. *)
Lemma separators_map_words f s :
  (forall v, is_a_word ua v = true -> is_a_word ua (f v) = true) ->
  separators ua (map_words ua f s) = separators ua s.
Proof.
  intros Hf. unfold map_words.
  pose proof (separators_split f s Hf) as E.
  pose proof (split_words_fst ua f s) as Hw.
  destruct (split_words ua f s) as [w out]. simpl in *.
  rewrite separators_app, E.
  by rewrite (separators_on_word f w Hf Hw).
Qed.

End MoreText.

(** ** Tables in which no keyword is itself a misspelling *)

Lemma fix_word_app rs1 rs2 w :
  fix_word (rs1 ++ rs2) w = fix_word rs2 (fix_word rs1 w).
Proof. unfold fix_word. apply fold_left_app. Qed.

(** The rules of one entry send the listed misspellings to the keyword and
    leave every other word alone. *)
Lemma fix_word_entry k ms w :
  fix_word (List.map (fun m => (m, k))
              (List.filter (fun m => negb (bool_decide (m = k))) ms)) w
  = if decide (w ∈ ms /\ w <> k) then k else w.
Proof.
  revert w. induction ms as [|m ms IH]; intros w.
  - rewrite decide_False; [done|]. intros [H _]. by apply elem_of_nil in H.
  - cbn [List.filter]. destruct (decide (m = k)) as [->|Hmk].
    + rewrite bool_decide_eq_true_2 by done. cbn [negb]. rewrite IH.
      destruct (decide (w ∈ ms /\ w <> k)) as [[H1 H2]|H].
      * rewrite decide_True; [done|]. split; [by apply list_elem_of_further|done].
      * rewrite decide_False; [done|]. intros [H1 H2]. apply H.
        split; [|done]. apply elem_of_cons in H1 as [->|H1]; done.
    + rewrite bool_decide_eq_false_2 by done. cbn [negb List.map].
      rewrite fix_word_cons. cbn [fst snd]. unfold subst1.
      destruct (decide (w = m)) as [->|Hwm].
      * rewrite IH. rewrite decide_False by (intros [_ H]; done).
        rewrite decide_True; [done|]. split; [apply list_elem_of_here|done].
      * rewrite IH.
        destruct (decide (w ∈ ms /\ w <> k)) as [[H1 H2]|H].
        -- rewrite decide_True; [done|].
           split; [by apply list_elem_of_further|done].
        -- rewrite decide_False; [done|]. intros [H1 H2]. apply H.
           split; [|done]. apply elem_of_cons in H1 as [->|H1]; done.
Qed.

Lemma fix_word_canonical its :
  (forall k, k ∈ List.map fst its -> k ∉ List.map fst (rules_of its)) ->
  forall w, fix_word (rules_of its) w = canonical_in its w.
Proof.
  induction its as [|[k ms] its IH]; intros H w; [done|].
  cbn [rules_of flat_map canonical_in]. cbn [fst snd].
  rewrite fix_word_app, fix_word_entry.
  assert (Hk : fix_word (rules_of its) k = k).
  { apply fix_word_unlisted. intros Hin.
    apply (H k); [apply list_elem_of_here|].
    cbn [rules_of flat_map]. rewrite List.map_app.
    apply elem_of_app. by right. }
  assert (Hits : forall k', k' ∈ List.map fst its ->
                            k' ∉ List.map fst (rules_of its)).
  { intros k' Hk' Hin. apply (H k'); [by apply list_elem_of_further|].
    cbn [rules_of flat_map]. rewrite List.map_app.
    apply elem_of_app. by right. }
  destruct (decide (w ∈ ms)) as [Hin|Hout].
  - destruct (decide (w = k)) as [->|Hne].
    + rewrite decide_False by (intros [_ ?]; done). exact Hk.
    + rewrite decide_True by done. exact Hk.
  - rewrite decide_False by (intros [? _]; done). by apply IH.
Qed.

Lemma canonical_in_cases its w :
  canonical_in its w = w \/ canonical_in its w ∈ List.map fst its.
Proof.
  induction its as [|[k ms] its IH]; [by left|].
  simpl. case_decide.
  - right. apply list_elem_of_here.
  - destruct IH as [E|Hin]; [by left|right]. by apply list_elem_of_further.
Qed.

Lemma keywords_items self : List.map fst (items self) = keywords self.
Proof.
  unfold items, keywords. rewrite List.map_map. by apply List.map_ext.
Qed.

Lemma separate_spec self :
  separate self ->
  forall k, k ∈ List.map fst (items self) ->
            k ∉ List.map fst (rules_of (items self)).
Proof.
  intros H k Hk. rewrite keywords_items in Hk.
  by apply (proj1 (Forall_forall _ _) H).
Qed.

Lemma fix_word_separate self w :
  separate self -> fix_word (rules self) w = canonical_of self w.
Proof. intros H. by apply fix_word_canonical, separate_spec. Qed.

Lemma canonical_of_idem self w :
  separate self ->
  canonical_of self (canonical_of self w) = canonical_of self w.
Proof.
  intros H. unfold canonical_of.
  destruct (canonical_in_cases (items self) w) as [E|Hin]; [by rewrite !E|].
  apply canonical_in_unlisted. by apply separate_spec.
Qed.

Lemma canonical_of_word ua self w :
  words_table ua self = true -> separate self ->
  is_a_word ua w = true -> is_a_word ua (canonical_of self w) = true.
Proof.
  intros Hr Hs Hw. rewrite <- fix_word_separate by done.
  by apply fix_word_word.
Qed.

(** ** What the mutators do to the table as a whole *)

Lemma rules_of_spec its m k :
  (m, k) ∈ rules_of its <-> exists ms, (k, ms) ∈ its /\ m ∈ ms /\ m <> k.
Proof.
  unfold rules_of. rewrite list_elem_of_In, in_flat_map. split.
  - intros ([k' ms] & He & Hr).
    apply in_map_iff in Hr as (m0 & [= -> ->] & Hf).
    apply filter_In in Hf as [Hm Hne]. simpl in *.
    apply negb_true_iff, bool_decide_eq_false in Hne.
    exists ms. by rewrite !list_elem_of_In.
  - intros (ms & He & Hm & Hne). exists (k, ms).
    split; [by apply list_elem_of_In|].
    apply in_map_iff. exists m. split; [done|].
    apply filter_In. split; [by apply list_elem_of_In|].
    simpl. by rewrite bool_decide_eq_false_2.
Qed.

Lemma keywords_assign k r d :
  List.map fst (assign k r d)
  = if decide (k ∈ List.map fst d) then List.map fst d
    else List.map fst d ++ [k].
Proof.
  induction d as [|[k0 r0] d IH]; cbn [assign List.map fst].
  - rewrite decide_False; [done|]. apply not_elem_of_nil.
  - destruct (decide (k0 = k)) as [->|Hne]; cbn [List.map fst].
    + rewrite decide_True; [done|]. apply list_elem_of_here.
    + rewrite IH. destruct (decide (k ∈ List.map fst d)) as [Hin|Hout].
      * rewrite decide_True; [done|]. by apply list_elem_of_further.
      * rewrite decide_False; [done|].
        intros H. apply elem_of_cons in H as [E|H]; [by subst|done].
Qed.

Lemma add_misspelling_table self k m :
  keyword_mappings (snd (add_misspelling self k m)) = keyword_mappings self.
Proof.
  unfold add_misspelling.
  destruct (find_key k (keyword_mappings self)); [|done]. by case_decide.
Qed.

(** The object behind a reference after [add_misspelling]. *)
Lemma add_misspelling_obj self k m r' :
  obj (snd (add_misspelling self k m)) r' = obj self r' \/
  obj (snd (add_misspelling self k m)) r' = obj self r' ++ [m].
Proof.
  unfold add_misspelling.
  destruct (find_key k (keyword_mappings self)) as [r|]; [|by left].
  case_decide; [by left|]. destruct self as [st d]. simpl.
  rewrite obj_insert. case_decide as E; [|by left].
  destruct E as [-> _]. by right.
Qed.

Lemma add_keyword_obj self k arg r' :
  r' < List.length (store self) ->
  obj (add_keyword self k arg) r' = obj self r' \/
  obj (add_keyword self k arg) r' = k :: obj self r'.
Proof.
  intros Hr'. destruct self as [st d], arg as [r|]; simpl in *.
  - case_decide; [by left|]. rewrite obj_insert.
    case_decide as E; [|by left]. destruct E as [-> _]. by right.
  - left. unfold obj. simpl. by rewrite lookup_app_l.
Qed.

Lemma obj_elem_valid self r x :
  x ∈ obj self r -> r < List.length (store self).
Proof.
  unfold obj. destruct (store self !! r) as [l|] eqn:E; simpl.
  - intros _. by apply lookup_lt_Some in E.
  - intros H. by apply elem_of_nil in H.
Qed.

(** X1: the order of the keys, which is the order in which [fix_spelling]
    goes through the table, is left alone by [add_misspelling]; [add_keyword]
    keeps the place of a keyword that is already a key and puts a new keyword
    last. *)
Theorem keyword_order self k m arg :
  keywords (snd (add_misspelling self k m)) = keywords self /\
  keywords (add_keyword self k arg)
  = if decide (k ∈ keywords self) then keywords self else keywords self ++ [k].
Proof.
  unfold keywords. rewrite add_misspelling_table. split; [done|].
  destruct arg as [r|]; simpl; apply keywords_assign.
Qed.

(** X2: no call takes a spelling away from the entry of another keyword:
    what an entry lists before [add_misspelling] it lists after it, and so
    for [add_keyword] and every keyword but the one being registered. *)
Theorem entries_only_grow self k m arg k' x
    (Hx : x ∈ get_misspellings self k') :
  x ∈ get_misspellings (snd (add_misspelling self k m)) k' /\
  (k' <> k -> x ∈ get_misspellings (add_keyword self k arg) k').
Proof.
  unfold get_misspellings in *.
  destruct (find_key k' (keyword_mappings self)) as [r'|] eqn:Hk';
    [|by apply elem_of_nil in Hx].
  split.
  - rewrite add_misspelling_table, Hk'.
    destruct (add_misspelling_obj self k m r') as [-> | ->]; [done|].
    apply elem_of_app. by left.
  - intros Hne.
    assert (E : find_key k' (keyword_mappings (add_keyword self k arg))
                = Some r').
    { destruct arg as [r|]; simpl; rewrite find_key_assign;
        by rewrite decide_False. }
    rewrite E.
    destruct (add_keyword_obj self k arg r' (obj_elem_valid _ _ _ Hx))
      as [-> | ->]; [done|].
    by apply list_elem_of_further.
Qed.

Lemma entries_only_grow_witness :
  py "iff" ∈ get_misspellings init (py "if") /\
  py "iff" ∈ get_misspellings
               (snd (add_misspelling init (py "def") (py "dfe"))) (py "if") /\
  py "iff" ∈ get_misspellings (add_keyword init (py "def") None) (py "if").
Proof.
  assert (Hx : py "iff" ∈ get_misspellings init (py "if")) by settle_by_eval.
  destruct (entries_only_grow init (py "def") (py "dfe") None
              (py "if") (py "iff") Hx) as [H1 H2].
  split; [exact Hx|]. split; [exact H1|].
  apply H2. vm_compute. discriminate.
Defined.

(** X3: [add_keyword] keeps the caller's list object, it does not copy it.
    When one list object is registered for two keywords the two entries are
    one object: a misspelling added for the first keyword is listed for the
    second as well. *)
Theorem shared_list_object self k1 k2 r m
    (Hr : r < List.length (store self)) (Hne : k1 <> k2) :
  let shared := add_keyword (add_keyword self k1 (Some r)) k2 (Some r) in
  let after := snd (add_misspelling shared k1 m) in
  get_misspellings after k2 = get_misspellings after k1 /\
  m ∈ get_misspellings after k2.
Proof.
  intros shared after.
  assert (H1 : find_key k1 (keyword_mappings shared) = Some r).
  { unfold shared. simpl. rewrite !find_key_assign.
    rewrite decide_False by done. by rewrite decide_True. }
  assert (H2 : find_key k2 (keyword_mappings shared) = Some r).
  { unfold shared. simpl. rewrite find_key_assign. by rewrite decide_True. }
  assert (Hlen : r < List.length (store shared)).
  { unfold shared. simpl.
    repeat case_decide; rewrite ?length_insert; exact Hr. }
  unfold get_misspellings, after. clearbody shared. clear after.
  rewrite !add_misspelling_table, H1, H2.
  split; [done|].
  unfold add_misspelling. rewrite H1.
  case_decide as Hm; [done|]. simpl.
  destruct shared as [st d]. simpl in *.
  rewrite obj_insert, decide_True by done.
  apply elem_of_app. right. apply list_elem_of_here.
Qed.

Lemma shared_list_object_witness :
  let self := snd (new_list [py "teh"] init) in
  let shared :=
    add_keyword (add_keyword self (py "the") (Some 24)) (py "thee") (Some 24) in
  24 < List.length (store self) /\
  py "hte" ∈ get_misspellings
               (snd (add_misspelling shared (py "the") (py "hte"))) (py "thee").
Proof.
  intros self shared.
  assert (Hr : 24 < List.length (store self)) by (vm_compute; lia).
  split; [exact Hr|].
  assert (Hne : py "the" <> py "thee") by (vm_compute; discriminate).
  exact (proj2 (shared_list_object self (py "the") (py "thee") 24 (py "hte")
                  Hr Hne)).
Defined.

(** X4: a text without a word character (the empty text, blank lines,
    punctuation) comes back unchanged, whatever the table holds, as long as
    the keywords used as replacements hold no backslash. *)
Theorem text_without_words_unchanged ua self s
    (Hplain : plain_rules self = true) (Hs : no_word ua s = true) :
  fix_spelling ua self s = s.
Proof. rewrite fix_spelling_rules. by apply fold_rules_no_word. Qed.

Lemma text_without_words_unchanged_witness :
  fix_spelling (fun _ => false) init (py "   " ++ [10%N; 9%N] ++ py "  ")
  = py "   " ++ [10%N; 9%N] ++ py "  ".
Proof.
  apply text_without_words_unchanged; vm_compute; reflexivity.
Defined.

(** X5: for every table whose misspellings and keywords are words,
    [fix_spelling] keeps the structure of the text: the corrected text has
    the same characters outside words, in the same order, and its words are
    the words of the text, each rewritten on its own by the rules. *)
Theorem structure_preserved ua self s
    (Hwords : words_table ua self = true) :
  words ua (fix_spelling ua self s)
  = List.map (fix_word (rules self)) (words ua s) /\
  separators ua (fix_spelling ua self s) = separators ua s.
Proof.
  rewrite fix_spelling_words by done.
  split.
  - apply words_map_words. intros v. by apply fix_word_word.
  - apply separators_map_words. intros v. by apply fix_word_word.
Qed.

Lemma structure_preserved_witness :
  words (fun _ => false)
        (fix_spelling (fun _ => false) init (py "iff x: retrun (nil)"))
  = [py "if"; py "x"; py "return"; py "None"] /\
  separators (fun _ => false)
             (fix_spelling (fun _ => false) init (py "iff x: retrun (nil)"))
  = py " :  ()".
Proof.
  assert (H : words_table (fun _ => false) init = true)
    by (vm_compute; reflexivity).
  destruct (structure_preserved (fun _ => false) init
              (py "iff x: retrun (nil)") H) as [H1 H2].
  split.
  - rewrite H1. vm_compute. reflexivity.
  - rewrite H2. vm_compute. reflexivity.
Defined.

Lemma fix_spelling_canonical ua self t :
  words_table ua self = true -> separate self ->
  fix_spelling ua self t = map_words ua (canonical_of self) t.
Proof.
  intros Hwords Hsep. rewrite fix_spelling_words by done.
  apply map_words_ext. intros w. by apply fix_word_separate.
Qed.

(** X6: for every table whose misspellings and keywords are words and in
    which no keyword is registered as a misspelling, [fix_spelling] replaces
    each word by the keyword of the first entry that lists it, and correcting
    a second time changes nothing. *)
Theorem separate_table_canonical ua self s
    (Hwords : words_table ua self = true) (Hsep : separate self) :
  fix_spelling ua self s = map_words ua (canonical_of self) s /\
  fix_spelling ua self (fix_spelling ua self s) = fix_spelling ua self s.
Proof.
  pose proof (fun t => fix_spelling_canonical ua self t Hwords Hsep) as E.
  split; [apply E|]. rewrite !E.
  rewrite map_words_compose by (intros w; by apply canonical_of_word).
  apply map_words_ext. intros w. by apply canonical_of_idem.
Qed.

Lemma separate_table_canonical_witness :
  let self := snd (add_misspelling init (py "def") (py "dfe")) in
  fix_spelling (fun _ => false) self (py "dfe f(): retrun deff")
  = py "def f(): return def" /\
  fix_spelling (fun _ => false) self
    (fix_spelling (fun _ => false) self (py "dfe f(): retrun deff"))
  = fix_spelling (fun _ => false) self (py "dfe f(): retrun deff").
Proof.
  intros self.
  assert (H1 : words_table (fun _ => false) self = true)
    by (vm_compute; reflexivity).
  assert (H2 : separate self) by settle_by_eval.
  destruct (separate_table_canonical (fun _ => false) self
              (py "dfe f(): retrun deff") H1 H2) as [E1 E2].
  split; [|exact E2]. rewrite E1. vm_compute. reflexivity.
Defined.

(** ** A misspelling added to a table, then [fix_spelling] *)

Lemma unshared_key (d : list (str * nat)) k k' r :
  NoDup (List.map snd d) -> (k, r) ∈ d -> (k', r) ∈ d -> k = k'.
Proof.
  induction d as [|[k0 r0] d IH]; intros Hnd H1 H2.
  - by apply elem_of_nil in H1.
  - simpl in Hnd. apply NoDup_cons in Hnd as [Hr0 Hnd].
    apply elem_of_cons in H1 as [E1|H1];
      apply elem_of_cons in H2 as [E2|H2]; simplify_eq; try done.
    + exfalso. apply Hr0. apply list_elem_of_In, in_map_iff.
      exists (k', r0). split; [done|]. by apply list_elem_of_In.
    + exfalso. apply Hr0. apply list_elem_of_In, in_map_iff.
      exists (k, r0). split; [done|]. by apply list_elem_of_In.
    + by apply IH.
Qed.

Lemma items_add_misspelling self k m r :
  find_key k (keyword_mappings self) = Some r ->
  m ∉ obj self r -> r < List.length (store self) ->
  items (snd (add_misspelling self k m))
  = List.map (entry_after self r m) (keyword_mappings self).
Proof.
  intros Hk Hm Hr. unfold add_misspelling. rewrite Hk.
  rewrite decide_False by done. unfold items. destruct self as [st d].
  simpl in *. apply List.map_ext. intros [k' r']. unfold entry_after. simpl.
  rewrite obj_insert. case_decide as E.
  - destruct E as [-> _]. by rewrite decide_True.
  - rewrite decide_False; [done|]. intros ->. apply E. by split.
Qed.

Lemma canonical_in_after_other self r m d w :
  w <> m ->
  canonical_in (List.map (entry_after self r m) d) w
  = canonical_in (List.map (fun kr => (fst kr, obj self (snd kr))) d) w.
Proof.
  intros Hne. induction d as [|[k' r'] d IH]; [done|].
  cbn [List.map canonical_in entry_after fst snd]. rewrite IH.
  destruct (decide (r' = r)) as [->|Hr]; [|done].
  destruct (decide (w ∈ obj self r)) as [Hin|Hout].
  - rewrite decide_True; [done|]. apply elem_of_app. by left.
  - rewrite decide_False; [done|]. intros H.
    apply elem_of_app in H as [H|H]; [done|].
    by apply list_elem_of_singleton in H.
Qed.

Lemma canonical_in_after_new self r m k d :
  (forall kr, kr ∈ d -> m ∉ obj self (snd kr)) ->
  (forall kr, kr ∈ d -> snd kr = r -> fst kr = k) ->
  (exists kr, kr ∈ d /\ snd kr = r) ->
  canonical_in (List.map (entry_after self r m) d) m = k.
Proof.
  intros Hfresh Hkey Hex. induction d as [|[k' r'] d IH].
  - destruct Hex as (kr & H & _). by apply elem_of_nil in H.
  - cbn [List.map canonical_in entry_after fst snd].
    destruct (decide (r' = r)) as [->|Hr].
    + rewrite decide_True by (apply elem_of_app; right; apply list_elem_of_here).
      apply (Hkey (k', r)); [apply list_elem_of_here|done].
    + rewrite decide_False by (apply (Hfresh (k', r')), list_elem_of_here).
      apply IH.
      * intros kr H. apply Hfresh. by apply list_elem_of_further.
      * intros kr H. apply Hkey. by apply list_elem_of_further.
      * destruct Hex as (kr & H & E).
        apply elem_of_cons in H as [->|H]; [done|]. by exists kr.
Qed.

Lemma items_elem self k r :
  (k, r) ∈ keyword_mappings self -> (k, obj self r) ∈ items self.
Proof.
  intros H. unfold items. apply list_elem_of_In, in_map_iff.
  exists (k, r). split; [done|]. by apply list_elem_of_In.
Qed.

Lemma keywords_elem self k r :
  (k, r) ∈ keyword_mappings self -> k ∈ keywords self.
Proof.
  intros H. unfold keywords. apply list_elem_of_In, in_map_iff.
  exists (k, r). split; [done|]. by apply list_elem_of_In.
Qed.

(** A spelling that is neither a keyword nor a misspelling is in no entry. *)
Lemma fresh_unlisted self m k r :
  m ∉ keywords self -> m ∉ alternates self ->
  (k, r) ∈ keyword_mappings self -> m ∉ obj self r.
Proof.
  intros H1 H2 Hkr Hin. destruct (decide (m = k)) as [->|Hne].
  - apply H1. by apply (keywords_elem _ _ r).
  - apply H2, alternates_spec. exists k, (obj self r).
    split; [by apply items_elem|done].
Qed.

Lemma rules_elem self m k : (m, k) ∈ rules self -> m ∈ alternates self.
Proof.
  intros H. unfold alternates. apply list_elem_of_In, in_map_iff.
  exists (m, k). split; [done|]. by apply list_elem_of_In.
Qed.

Lemma rules_after self k m r m' k' :
  find_key k (keyword_mappings self) = Some r ->
  m ∉ obj self r -> r < List.length (store self) -> unshared self ->
  (m', k') ∈ rules (snd (add_misspelling self k m)) ->
  (m', k') ∈ rules self \/ (m' = m /\ k' = k).
Proof.
  intros Hk Hm Hr Hun. unfold rules.
  rewrite (items_add_misspelling self k m r) by done.
  rewrite !rules_of_spec. intros (ms' & He & Hm' & Hne).
  apply list_elem_of_In, in_map_iff in He as ([k0 r0] & E & Hkr).
  apply list_elem_of_In in Hkr.
  unfold entry_after in E. simpl in E.
  destruct (decide (r0 = r)) as [->|Hr0]; simplify_eq.
  - assert (k' = k) as ->.
    { apply (unshared_key _ _ _ r Hun); [done|]. by apply find_key_elem. }
    apply elem_of_app in Hm' as [Hm'|Hm'].
    + left. exists (obj self r). split; [by apply items_elem|done].
    + right. by apply list_elem_of_singleton in Hm'.
  - left. exists (obj self r0). split; [by apply items_elem|done].
Qed.

(** X7: on a table whose rules are made of words, with no keyword
    registered as a misspelling and no list object shared between two
    keywords, adding a new word [m] as a misspelling of the keyword [k] makes
    [fix_spelling] correct [m] to [k] and changes nothing else: every other
    word is corrected as before. *)
Theorem add_misspelling_then_fix ua self k m s
    (Hvalid : refs_valid self) (Hun : unshared self)
    (Hwords : words_table ua self = true) (Hsep : separate self)
    (Hk : has_key self k) (Hkw : is_a_word ua k = true)
    (Hmw : is_a_word ua m = true)
    (Hm1 : m ∉ keywords self) (Hm2 : m ∉ alternates self) :
  fix_spelling ua (snd (add_misspelling self k m)) s
  = map_words ua
      (fun w => if decide (w = m) then k else canonical_of self w) s.
Proof.
  destruct Hk as [r Hk].
  pose proof (find_key_elem _ _ _ Hk) as Hkr.
  pose proof (Hvalid _ _ Hk) as Hr.
  pose proof (fresh_unlisted self m k r Hm1 Hm2 Hkr) as Hm.
  set (self' := snd (add_misspelling self k m)).
  assert (Hrules : forall m' k', (m', k') ∈ rules self' ->
                     (m', k') ∈ rules self \/ (m' = m /\ k' = k)).
  { intros m' k'. by apply (rules_after self k m r). }
  assert (Hwords' : words_table ua self' = true).
  { unfold words_table. apply forallb_forall. intros [m' k'] Hin.
    apply list_elem_of_In, Hrules in Hin as [Hin|[-> ->]].
    - unfold words_table in Hwords. rewrite forallb_forall in Hwords.
      by apply Hwords, list_elem_of_In.
    - unfold rule_ok. simpl. by rewrite Hkw, Hmw. }
  assert (Hsep' : separate self').
  { unfold separate, keywords, self'. rewrite add_misspelling_table.
    apply Forall_forall. intros k' Hk' Hin.
    unfold alternates in Hin.
    apply list_elem_of_In, in_map_iff in Hin as ([m' k''] & E & Hin).
    simpl in E. subst m'.
    apply list_elem_of_In, Hrules in Hin as [Hin|[-> _]].
    - apply (proj1 (Forall_forall _ _) Hsep k' Hk').
      by apply (rules_elem _ _ k'').
    - by apply Hm1. }
  rewrite fix_spelling_canonical by done.
  apply map_words_ext. intros w.
  unfold canonical_of, self'.
  rewrite (items_add_misspelling self k m r) by done.
  destruct (decide (w = m)) as [->|Hne].
  - apply canonical_in_after_new.
    + intros [k0 r0] H0. by apply (fresh_unlisted self m k0 r0).
    + intros [k0 r0] H0 E. simpl in *. subst r0.
      by apply (unshared_key _ _ _ r Hun).
    + by exists (k, r).
  - by apply canonical_in_after_other.
Qed.

Lemma add_misspelling_then_fix_witness :
  fix_spelling (fun _ => false)
    (snd (add_misspelling init (py "def") (py "dfe")))
    (py "dfe f(): retrun deff")
  = map_words (fun _ => false)
      (fun w => if decide (w = py "dfe") then py "def"
                else canonical_of init w)
      (py "dfe f(): retrun deff").
Proof.
  apply add_misspelling_then_fix.
  - exact (table_ok_valid init table_ok_init).
  - settle_by_eval.
  - vm_compute. reflexivity.
  - settle_by_eval.
  - vm_compute. by eexists.
  - vm_compute. reflexivity.
  - vm_compute. reflexivity.
  - settle_by_eval.
  - settle_by_eval.
Defined.

(** ** A keyword added to a table, then [fix_spelling] *)

Lemma assign_new k r d :
  k ∉ List.map fst d -> assign k r d = d ++ [(k, r)].
Proof.
  induction d as [|[k0 r0] d IH]; intros H; [done|].
  simpl in *. apply not_elem_of_cons in H as [Hne H].
  rewrite decide_False by done. by rewrite IH.
Qed.

Lemma items_app_new st st' d k r :
  (forall kr, kr ∈ d -> st' !! snd kr = st !! snd kr) ->
  items (Interp st' (d ++ [(k, r)]))
  = items (Interp st d) ++ [(k, default [] (st' !! r))].
Proof.
  intros H. unfold items. simpl. rewrite List.map_app. f_equal.
  apply List.map_ext_in. intros kr Hkr. unfold obj. simpl.
  by rewrite H by (by apply list_elem_of_In).
Qed.

(** The table after a new keyword was registered with a list built for
    it. *)
Lemma items_add_keyword_list self k ms :
  bindings_valid self -> k ∉ keywords self ->
  items (add_keyword (snd (new_list ms self)) k (Some (fst (new_list ms self))))
  = items self ++ [(k, with_keyword k ms)].
Proof.
  intros Hv Hk. destruct self as [st d]. unfold bindings_valid in Hv.
  unfold new_list, add_keyword, keywords in *. cbn [fst snd store keyword_mappings] in *.
  rewrite assign_new by done.
  assert (Hobj : obj (Interp (st ++ [ms]) d) (List.length st) = ms)
    by apply obj_fresh.
  rewrite Hobj. unfold with_keyword.
  destruct (decide (k ∈ ms)) as [Hin|Hout].
  - rewrite (items_app_new st).
    + by rewrite list_lookup_middle.
    + intros kr Hkr. apply lookup_app_l.
      by apply (proj1 (Forall_forall _ _) Hv).
  - rewrite (items_app_new st).
    + rewrite list_lookup_insert_eq; [done|]. rewrite length_app. simpl. lia.
    + intros kr Hkr.
      pose proof (proj1 (Forall_forall _ _) Hv kr Hkr) as Hlt.
      simpl in Hlt. rewrite list_lookup_insert_ne by lia. by apply lookup_app_l.
Qed.

Lemma items_add_keyword_default self k :
  bindings_valid self -> k ∉ keywords self ->
  items (add_keyword self k None) = items self ++ [(k, [k])].
Proof.
  intros Hv Hk. destruct self as [st d]. unfold bindings_valid in Hv.
  unfold add_keyword, keywords in *. cbn [store keyword_mappings] in *.
  rewrite assign_new by done. rewrite (items_app_new st).
  - by rewrite list_lookup_middle.
  - intros kr Hkr. apply lookup_app_l.
    by apply (proj1 (Forall_forall _ _) Hv).
Qed.

Lemma rules_of_app its1 its2 :
  rules_of (its1 ++ its2) = rules_of its1 ++ rules_of its2.
Proof. unfold rules_of. apply flat_map_app. Qed.

Lemma rules_of_keyword_only k : rules_of [(k, [k])] = [].
Proof.
  unfold rules_of. simpl. by rewrite bool_decide_eq_true_2.
Qed.

Lemma rules_of_single k ms :
  rules_of [(k, ms)]
  = List.map (fun m => (m, k))
      (List.filter (fun m => negb (bool_decide (m = k))) ms).
Proof. unfold rules_of. simpl. apply app_nil_r. Qed.

Lemma with_keyword_elem k ms x :
  x ∈ with_keyword k ms <-> x = k \/ x ∈ ms.
Proof.
  unfold with_keyword. case_decide as Hk.
  - split; [by right|]. intros [->|H]; done.
  - by rewrite elem_of_cons.
Qed.

(** X8: on a table whose rules are made of words and in which no keyword is
    registered as a misspelling, registering a new keyword [k] with a list
    [ms] of new words makes [fix_spelling] correct the words of [ms] to [k]
    and changes nothing else; registering [k] without a list changes nothing
    in what [fix_spelling] returns. *)
Theorem add_keyword_then_fix ua self k ms s
    (Hvalid : bindings_valid self)
    (Hwords : words_table ua self = true) (Hsep : separate self)
    (Hkw : is_a_word ua k = true)
    (Hk1 : k ∉ keywords self) (Hk2 : k ∉ alternates self)
    (Hms : Forall (fun x => is_a_word ua x = true /\
                            (x ∉ keywords self) /\ (x ∉ alternates self))
                  ms) :
  let fresh := new_list ms self in
  fix_spelling ua (add_keyword (snd fresh) k (Some (fst fresh))) s
  = map_words ua
      (fun w => if decide (w ∈ ms) then k else canonical_of self w) s /\
  fix_spelling ua (add_keyword self k None) s = fix_spelling ua self s.
Proof.
  intros fresh. split.
  - set (self' := add_keyword (snd fresh) k (Some (fst fresh))).
    assert (Hr : rules self' = rules self ++ rules_of [(k, with_keyword k ms)]).
    { unfold rules, self', fresh.
      rewrite items_add_keyword_list by done. apply rules_of_app. }
    assert (Hwords' : words_table ua self' = true).
    { unfold words_table. rewrite Hr, forallb_app. apply andb_true_iff.
      split; [exact Hwords|]. apply forallb_forall. intros [x k'] Hin.
      apply list_elem_of_In, rules_of_spec in Hin as (ms' & He & Hx & Hne).
      apply list_elem_of_singleton in He. injection He as -> ->.
      apply with_keyword_elem in Hx as [->|Hx]; [done|].
      unfold rule_ok. simpl. rewrite Hkw, andb_true_r.
      by apply (proj1 (Forall_forall _ _) Hms x). }
    rewrite fix_spelling_words by done.
    apply map_words_ext. intros w.
    rewrite Hr, fix_word_app, rules_of_single, fix_word_entry.
    rewrite fix_word_separate by done.
    destruct (decide (w ∈ ms)) as [Hin|Hout].
    + destruct (proj1 (Forall_forall _ _) Hms w Hin) as (_ & _ & Hw).
      assert (E : canonical_of self w = w) by (by apply canonical_in_unlisted).
      rewrite E. destruct (decide (w = k)) as [->|Hne].
      * by rewrite decide_False by (intros [_ ?]; done).
      * rewrite decide_True; [done|]. split; [|done].
        apply with_keyword_elem. by right.
    + apply decide_False. intros [Hin Hne].
      apply with_keyword_elem in Hin as [?|Hin]; [done|].
      destruct (proj1 (Forall_forall _ _) Hms _ Hin) as (_ & Hc1 & _).
      destruct (canonical_in_cases (items self) w) as [E|Hkey].
      * unfold canonical_of in Hin. rewrite E in Hin. done.
      * rewrite keywords_items in Hkey. by apply Hc1.
  - rewrite !fix_spelling_rules. unfold rules.
    rewrite items_add_keyword_default by done.
    by rewrite rules_of_app, rules_of_keyword_only, app_nil_r.
Qed.

Lemma add_keyword_then_fix_witness :
  let fresh := new_list [py "teh"; py "hte"] init in
  fix_spelling (fun _ => false)
    (add_keyword (snd fresh) (py "the") (Some (fst fresh)))
    (py "iff teh: prin(hte)")
  = py "if the: print(the)" /\
  fix_spelling (fun _ => false) (add_keyword init (py "the") None)
    (py "iff teh: prin(hte)")
  = fix_spelling (fun _ => false) init (py "iff teh: prin(hte)").
Proof.
  intros fresh.
  assert (H : fix_spelling (fun _ => false)
                (add_keyword (snd fresh) (py "the") (Some (fst fresh)))
                (py "iff teh: prin(hte)")
              = map_words (fun _ => false)
                  (fun w => if decide (w ∈ [py "teh"; py "hte"])
                            then py "the" else canonical_of init w)
                  (py "iff teh: prin(hte)") /\
              fix_spelling (fun _ => false) (add_keyword init (py "the") None)
                (py "iff teh: prin(hte)")
              = fix_spelling (fun _ => false) init (py "iff teh: prin(hte)")).
  { apply add_keyword_then_fix.
    - settle_by_eval.
    - vm_compute. reflexivity.
    - settle_by_eval.
    - vm_compute. reflexivity.
    - settle_by_eval.
    - settle_by_eval.
    - repeat constructor; try (vm_compute; reflexivity); settle_by_eval. }
  destruct H as [H1 H2]. split; [|exact H2].
  rewrite H1. vm_compute. reflexivity.
Defined.

(** ** When [fix_spelling] changes a text *)

Lemma canonical_in_listed its k ms w :
  (k, ms) ∈ its -> w ∈ ms -> canonical_in its w ∈ List.map fst its.
Proof.
  induction its as [|[k0 ms0] its IH]; intros He Hw.
  - by apply elem_of_nil in He.
  - simpl. case_decide as H0; [apply list_elem_of_here|].
    apply list_elem_of_further. apply IH; [|done].
    apply elem_of_cons in He as [E|He]; [|done]. by simplify_eq.
Qed.

(** In a table where no keyword is a misspelling, a registered misspelling
    is never left as it is. *)
Lemma canonical_of_alternate self w :
  separate self -> w ∈ alternates self -> canonical_of self w <> w.
Proof.
  intros Hsep Hw E.
  pose proof Hw as Hw'. apply alternates_spec in Hw' as (k & ms & He & Hin & _).
  pose proof (canonical_in_listed _ _ _ _ He Hin) as Hk.
  fold (canonical_of self w) in Hk. rewrite E, keywords_items in Hk.
  by apply (proj1 (Forall_forall _ _) Hsep w).
Qed.

Lemma canonical_of_clean self w :
  separate self -> canonical_of self w ∉ alternates self.
Proof.
  intros Hsep Hin.
  destruct (canonical_in_cases (items self) w) as [E|Hk].
  - fold (canonical_of self w) in E. rewrite E in Hin.
    by apply (canonical_of_alternate self w).
  - rewrite keywords_items in Hk.
    by apply (proj1 (Forall_forall _ _) Hsep _ Hk).
Qed.

Lemma corrected_words_clean ua self s :
  words_table ua self = true -> separate self ->
  Forall (fun w => w ∉ alternates self) (words ua (fix_spelling ua self s)).
Proof.
  intros Hwords Hsep. rewrite fix_spelling_canonical by done.
  rewrite words_map_words by (intros v; by apply canonical_of_word).
  apply Forall_forall. intros w Hw.
  apply list_elem_of_In, in_map_iff in Hw as (v & <- & _).
  by apply canonical_of_clean.
Qed.

(** X9: on a table whose rules are made of words and in which no keyword is
    registered as a misspelling, [fix_spelling] changes a text exactly when
    one of its words is a registered misspelling (this is when [execute]
    prints its notice), and no word of the corrected text is one. *)
Theorem changed_iff_misspelled ua self s
    (Hwords : words_table ua self = true) (Hsep : separate self) :
  (fix_spelling ua self s = s <->
   Forall (fun w => w ∉ alternates self) (words ua s)) /\
  Forall (fun w => w ∉ alternates self) (words ua (fix_spelling ua self s)).
Proof.
  split; [|by apply corrected_words_clean].
  split.
  - intros E. rewrite <- E. by apply corrected_words_clean.
  - intros H. rewrite fix_spelling_canonical by done.
    apply map_words_fixed. intros w Hw. apply canonical_in_unlisted.
    by apply (proj1 (Forall_forall _ _) H).
Qed.

Lemma changed_iff_misspelled_witness :
  fix_spelling (fun _ => false) init (py "x = [1, 2]") = py "x = [1, 2]" /\
  Forall (fun w => w ∉ alternates init)
         (words (fun _ => false)
                (fix_spelling (fun _ => false) init (py "iff x: retrun"))).
Proof.
  assert (H1 : words_table (fun _ => false) init = true)
    by (vm_compute; reflexivity).
  assert (H2 : separate init) by settle_by_eval.
  split.
  - apply (proj1 (changed_iff_misspelled (fun _ => false) init
                    (py "x = [1, 2]") H1 H2)).
    settle_by_eval.
  - exact (proj2 (changed_iff_misspelled (fun _ => false) init
                    (py "iff x: retrun") H1 H2)).
Defined.

(** * Properties of [execute], [interactive_mode] and [main] *)

Section ShellProperties.

Variable ua : char -> bool.
Variable us : char -> bool.
Variable lower : str -> str.
Variable world : Type.
Variable exec_py : str -> world -> exec_result * world.
Variable read_file : str -> world -> (str + exn) * world.

Lemma print_calls (s : str) (st : io world) : calls (print s st) = calls st.
Proof. done. Qed.

Lemma execute_handlers_calls e (st : io world) :
  calls (fst (execute_handlers e st)) = calls st.
Proof.
  unfold execute_handlers. repeat (case (is_a e _); [reflexivity|]).
  reflexivity.
Qed.

(** What leaves [execute_handlers] is an exception none of the clauses
    names. *)
Lemma execute_handlers_escape e e' (st : io world) :
  snd (execute_handlers e st) = Some e' ->
  e' = e /\ is_a e KeyboardInterrupt = false /\ is_a e Exception = false.
Proof.
  unfold execute_handlers.
  destruct (is_a e SyntaxError); [cbn [snd]; intros [=]|].
  destruct (is_a e NameError); [cbn [snd]; intros [=]|].
  destruct (is_a e TypeError); [cbn [snd]; intros [=]|].
  destruct (is_a e ValueError); [cbn [snd]; intros [=]|].
  destruct (is_a e ImportError); [cbn [snd]; intros [=]|].
  destruct (is_a e KeyboardInterrupt); [cbn [snd]; intros [=]|].
  destruct (is_a e Exception); [cbn [snd]; intros [=]|].
  cbn [snd]. intros [= ->]. by repeat split.
Qed.

Lemma execute_calls self code (st : io world) :
  calls (fst (execute ua exec_py self code st))
  = calls st ++ [fix_spelling ua self code].
Proof.
  unfold execute, run_exec.
  destruct (exec_py _ _) as [res w]. cbn [fst snd].
  destruct (raised res) as [e|].
  - rewrite execute_handlers_calls. cbn [calls]. by case_decide.
  - cbn [fst calls]. by case_decide.
Qed.

Lemma execute_escape self code (st : io world) e :
  snd (execute ua exec_py self code st) = Some e ->
  is_a e KeyboardInterrupt = false /\ is_a e Exception = false.
Proof.
  unfold execute, run_exec.
  destruct (exec_py _ _) as [res w]. cbn [fst snd].
  destruct (raised res) as [e0|]; [|intros [=]].
  intros H. by apply execute_handlers_escape in H as (-> & ? & ?).
Qed.

Lemma loop_handlers_spec e (st : io world) buffer :
  calls (console (fst (loop_handlers e st buffer))) = calls st /\
  (snd (loop_handlers e st buffer) = Waiting ->
   multi_line_buffer (fst (loop_handlers e st buffer)) = []).
Proof.
  unfold loop_handlers.
  destruct (is_a e KeyboardInterrupt); [done|].
  destruct (is_a e EOFError); [done|]. split; [done|]. intros [=].
Qed.

(** One turn of the loop: the blocks it has executed, and where the lines
    are when the loop goes on. *)
Lemma repl_turn_spec self i (st st' : repl world) o :
  repl_turn ua us lower exec_py self i st = (st', o) ->
  exists blocks,
    calls (console st')
    = calls (console st)
      ++ List.map (fun b => fix_spelling ua self (join_lines b)) blocks /\
    Forall (fun b => b <> []) blocks /\
    (o = Waiting -> i <> CtrlC ->
     multi_line_buffer st ++ kept_lines us [i]
     = concat blocks ++ multi_line_buffer st').
Proof.
  destruct st as [c buf]. destruct i as [line| |]; cbn [repl_turn console multi_line_buffer].
  - case_decide as Hexit.
    { intros [= <- <-]. exists []. cbn [List.map calls console print].
      rewrite app_nil_r. split; [done|]. split; [constructor|]. intros [=]. }
    cbn [kept_lines flat_map]. rewrite app_nil_r.
    destruct (nonblank us line) eqn:Hnb; cbn [andb].
    + destruct (ends_with_colon us line
                || negb (bool_decide (buf ++ [line] = []))
                   && starts_indented line) eqn:Hcont.
      { intros [= <- <-]. exists []. cbn [List.map console multi_line_buffer concat].
        rewrite app_nil_r. by repeat split. }
      rewrite bool_decide_eq_false_2 by (by destruct buf). cbn [negb].
      destruct (execute ua exec_py self (join_lines (buf ++ [line])) c)
        as [c' r] eqn:He.
      pose proof (execute_calls self (join_lines (buf ++ [line])) c) as Hc.
      rewrite He in Hc. cbn [fst] in Hc.
      destruct r as [e|].
      * intros H. exists [buf ++ [line]].
        destruct (loop_handlers_spec e c' (buf ++ [line])) as [H1 H2].
        rewrite H in H1, H2. cbn [fst snd] in H1, H2.
        rewrite H1, Hc. split; [done|].
        split; [constructor; [by destruct buf|constructor]|].
        intros -> _. rewrite (H2 eq_refl). cbn [concat]. by rewrite !app_nil_r.
      * intros [= <- <-]. exists [buf ++ [line]].
        cbn [console multi_line_buffer concat]. rewrite Hc.
        split; [done|]. split; [constructor; [by destruct buf|constructor]|].
        intros _ _. by rewrite !app_nil_r.
    + destruct (bool_decide (buf = [])) eqn:Hb; cbn [negb].
      * intros [= <- <-]. exists [].
        cbn [List.map console multi_line_buffer concat].
        rewrite !app_nil_r. by repeat split.
      * apply bool_decide_eq_false in Hb.
        destruct (execute ua exec_py self (join_lines buf) c)
          as [c' r] eqn:He.
        pose proof (execute_calls self (join_lines buf) c) as Hc.
        rewrite He in Hc. cbn [fst] in Hc.
        destruct r as [e|].
        -- intros H. exists [buf].
           destruct (loop_handlers_spec e c' buf) as [H1 H2].
           rewrite H in H1, H2. cbn [fst snd] in H1, H2.
           rewrite H1, Hc. split; [done|].
           split; [by repeat constructor|].
           intros -> _. rewrite (H2 eq_refl). cbn [concat]. by rewrite !app_nil_r.
        -- intros [= <- <-]. exists [buf].
           cbn [console multi_line_buffer concat]. rewrite Hc.
           split; [done|]. split; [by repeat constructor|].
           intros _ _. by rewrite !app_nil_r.
  - intros [= <- <-]. exists []. cbn [List.map console calls print].
    rewrite app_nil_r. split; [done|]. split; [constructor|]. by intros _ [].
  - intros [= <- <-]. exists []. cbn [List.map console calls print].
    rewrite app_nil_r. split; [done|]. split; [constructor|]. intros [=].
Qed.

Lemma kept_lines_cons i ins :
  kept_lines us (i :: ins) = kept_lines us [i] ++ kept_lines us ins.
Proof. unfold kept_lines. simpl. by rewrite app_nil_r. Qed.

Lemma repl_loop_spec self ins :
  forall (st st' : repl world) o,
  repl_loop ua us lower exec_py self ins st = (st', o) ->
  exists blocks,
    calls (console st')
    = calls (console st)
      ++ List.map (fun b => fix_spelling ua self (join_lines b)) blocks /\
    Forall (fun b => b <> []) blocks /\
    (o = Waiting -> Forall (fun i => i <> CtrlC) ins ->
     multi_line_buffer st ++ kept_lines us ins
     = concat blocks ++ multi_line_buffer st').
Proof.
  induction ins as [|i ins IH]; intros st st' o; cbn [repl_loop].
  - intros [= <- <-]. exists []. cbn [List.map console calls write concat].
    rewrite !app_nil_r. by repeat split.
  - destruct (repl_turn ua us lower exec_py self i
                (Repl (write (prompt st) (console st)) (multi_line_buffer st)))
      as [st1 o1] eqn:Ht.
    apply repl_turn_spec in Ht as (b1 & Hc1 & Hn1 & Hl1).
    cbn [console multi_line_buffer calls write] in Hc1, Hl1.
    destruct o1 as [| |e].
    + intros H. apply IH in H as (b2 & Hc2 & Hn2 & Hl2).
      exists (b1 ++ b2). rewrite Hc2, Hc1, List.map_app, app_assoc.
      split; [done|]. split; [by apply Forall_app|].
      intros -> Hno. apply Forall_cons in Hno as [Hi Hno].
      rewrite kept_lines_cons, app_assoc, (Hl1 eq_refl Hi).
      rewrite <- app_assoc, (Hl2 eq_refl Hno).
      by rewrite concat_app, app_assoc.
    + intros [= <- <-]. exists b1. split; [done|]. split; [done|]. intros [=].
    + intros [= <- <-]. exists b1. split; [done|]. split; [done|]. intros [=].
Qed.

Lemma execute_handlers_stdout e (st : io world) :
  exists tail, stdout (fst (execute_handlers e st)) = stdout st ++ tail.
Proof.
  unfold execute_handlers.
  repeat (case (is_a e _); [eexists; reflexivity|]).
  case (is_a e Exception).
  - cbn [fst stdout print]. eexists. rewrite <- app_assoc. reflexivity.
  - exists []. cbn [fst]. by rewrite app_nil_r.
Qed.


Lemma welcome_calls (st : io world) : calls (welcome st) = calls st.
Proof. done. Qed.


Lemma main_handlers_calls filename e (st : io world) :
  calls (fst (main_handlers filename e st)) = calls st.
Proof.
  unfold main_handlers. repeat (case (is_a e _); [reflexivity|]).
  reflexivity.
Qed.


End ShellProperties.


(** X13: in every table state reached from the built-in table,
    [get_misspellings] returns the empty list exactly for the keywords that
    are not in the table. *)
Theorem get_misspellings_empty self k (Hreach : reachable self) :
  get_misspellings self k = [] <-> ~ has_key self k.
Proof.
  apply reachable_table_ok in Hreach.
  unfold get_misspellings, has_key.
  destruct (find_key k (keyword_mappings self)) as [r|] eqn:Hk.
  - split.
    + intros E. destruct (Hreach k r Hk) as [_ Hin].
      rewrite E in Hin. by apply elem_of_nil in Hin.
    + intros H. exfalso. apply H. by eexists.
  - split; [|done]. intros _ H. by apply is_Some_None in H.
Qed.

Lemma get_misspellings_empty_witness :
  reachable (add_keyword init (py "the") None) /\
  (get_misspellings (add_keyword init (py "the") None) (py "thee") = [] <->
   ~ has_key (add_keyword init (py "the") None) (py "thee")).
Proof.
  assert (H : reachable (add_keyword init (py "the") None))
    by (apply reach_add_keyword_default, reach_init).
  split; [exact H|].
  exact (get_misspellings_empty (add_keyword init (py "the") None)
           (py "thee") H).
Defined.
